(** * Counting sort over MPI: a shallow embedding and its properties

    The development follows the C sources of the repository:
    - [src/util.c]          ([safe_alloc], [array_init_random], [array_min_max]),
    - [src/counting_sort.c] ([key], [find_min_max], [counting_sort]),
    - [src/serial.c]        (the single-process [counting_sort]),
    - [src/main.c]          ([main]).

    Conventions of the embedding.
    - An [int] is a [Z]; every [int] operation applied to data-dependent
      operands is written with its two's-complement wrap-around
      ([wrap_int]).  [long long] quantities are indices into arrays held
      in memory and are kept as exact [Z] values; the byte counts handed
      to [safe_alloc] wrap at 64 bits ([wrap_llong]).
    - An array is a [list Z]; reads and writes are bounds-checked and an
      access outside the array is [Undefined].  A pointer [&a[k]] is the
      suffix of [a] that starts at [k].
    - A call to [exit] is the outcome [Exit status].
    - The MPI process group is modelled as a whole: a collective call
      takes the contribution of every rank and returns what every rank
      receives. *)

From Stdlib Require Import ZArith List Lia Sorted Permutation Ascii String.
From stdpp Require Import base tactics option list list_numbers sorting strings pretty.

Local Open Scope Z_scope.

(** ** Outcomes of a computation *)

Inductive result (A : Type) : Type :=
  | Ok (a : A)
  | Exit (status : Z)
  | Undefined.
Arguments Ok {A} a.
Arguments Exit {A} status.
Arguments Undefined {A}.

#[global] Instance result_ret : MRet result := @Ok.
#[global] Instance result_bind : MBind result := λ A B f m,
  match m with
  | Ok a => f a
  | Exit st => Exit st
  | Undefined => Undefined
  end.

Definition of_option {A} (o : option A) : result A :=
  match o with Some a => Ok a | None => Undefined end.

(** [stdlib.h] *)
Definition EXIT_SUCCESS : Z := 0.
Definition EXIT_FAILURE : Z := 1.

(** ** Machine integers *)

Definition INT_MIN : Z := -2147483648.
Definition INT_MAX : Z := 2147483647.

Definition wrap_int (z : Z) : Z := (z + 2 ^ 31) mod 2 ^ 32 - 2 ^ 31.
Definition wrap_llong (z : Z) : Z := (z + 2 ^ 63) mod 2 ^ 64 - 2 ^ 63.

Definition int_add (a b : Z) : Z := wrap_int (a + b).
Definition int_sub (a b : Z) : Z := wrap_int (a - b).

Definition sizeof_int : Z := 4.

(** C division truncates toward zero and the remainder takes the sign of
    the dividend; dividing by zero is undefined. *)
Definition c_div (a b : Z) : result Z :=
  if b =? 0 then Undefined else Ok (Z.quot a b).

Definition c_rem (a b : Z) : result Z :=
  if b =? 0 then Undefined else Ok (Z.rem a b).

(** ** Arrays *)

Definition load (a : list Z) (i : Z) : result Z :=
  if i <? 0 then Undefined else of_option (a !! Z.to_nat i).

Definition store (a : list Z) (i v : Z) : result (list Z) :=
  if (0 <=? i) && (i <? Z.of_nat (length a))
  then Ok (<[Z.to_nat i := v]> a)
  else Undefined.

(** [&a[k]] *)
Definition ptr_add (a : list Z) (k : Z) : list Z :=
  if k <? 0 then [] else drop (Z.to_nat k) a.

(** [a[i] += d] on an [int] array. *)
Definition add_at (a : list Z) (i d : Z) : result (list Z) :=
  v ← load a i; store a i (int_add v d).

(** ** Counted loops

    [for (i = lo; i < hi; i++) body] where the body changes neither [i]
    nor [hi]: the body runs for [i = lo, lo + 1, ..., hi - 1] and threads
    the state [s]. *)

Fixpoint for_loop {St : Type} (n : nat) (i : Z) (body : Z → St → result St) (s : St)
  : result St :=
  match n with
  | O => Ok s
  | S n' => s' ← body i s; for_loop n' (i + 1) body s'
  end.

Definition for_range {St : Type} (lo hi : Z) (body : Z → St → result St) (s : St)
  : result St :=
  for_loop (Z.to_nat (hi - lo)) lo body s.

(** ** [util.c]: allocation and extrema *)

Section Sort.

(** Whether the C library grants a request of the given number of bytes. *)
Variable malloc : Z → bool.

(** [safe_alloc]: the block is returned as an array of [int]; its contents
    are indeterminate in C and every caller overwrites them before reading
    (they are zero here). *)
Definition safe_alloc (size : Z) : result (list Z) :=
  if size <? 1 then Exit EXIT_FAILURE
  else if malloc size then Ok (replicate (Z.to_nat (size / sizeof_int)) 0)
  else Exit EXIT_FAILURE.

Definition array_min_max (array : list Z) (size : Z) : result (Z * Z) :=
  a0 ← load array 0;
  for_range 0 size (λ i '(min, max),
    x ← load array i;
    if x <? min then Ok (x, max)
    else if x >? max then Ok (min, x)
    else Ok (min, max)) (a0, a0).

(** ** The MPI process group *)

(** The ranks of a group of [num_proc] processes. *)
Definition ranks (num_proc : Z) : list Z := seqZ 0 num_proc.

(** [MPI_Allreduce] of one [int] per rank: [sendbuf] holds the contribution
    of every rank, the result holds what every rank receives. *)
Definition MPI_Allreduce (op : Z → Z → Z) (sendbuf : list Z) : list Z :=
  match sendbuf with
  | [] => []
  | x :: xs => replicate (length sendbuf) (foldl op x xs)
  end.

(** [MPI_Recv(buf, count, MPI_INT, source, ...)]: [sent] holds the message
    that every rank has sent to the receiver. *)
Definition MPI_Recv (buf : list Z) (count source : Z) (sent : list (list Z))
  : result (list Z) :=
  msg ← (if source <? 0 then Undefined else of_option (sent !! Z.to_nat source));
  if Z.of_nat (length msg) <=? count
  then Ok (msg ++ drop (length msg) buf)
  else Undefined.

(** [MPI_Bcast(buf, count, MPI_INT, 0, ...)]: [bufs] holds the buffer of
    every rank before the call, the result the buffers after it. *)
Definition MPI_Bcast (count : Z) (bufs : list (list Z)) : result (list (list Z)) :=
  root ← of_option (bufs !! 0%nat);
  Ok ((λ buf, take (Z.to_nat count) root ++ drop (Z.to_nat count) buf) <$> bufs).

(** [MPI_Allgather(sendbuf, count, MPI_INT, recvbuf, count, MPI_INT, ...)]:
    the blocks of all ranks, in rank order, land at the front of the
    receive buffer of every rank. *)
Definition MPI_Allgather (sendbufs : list (list Z)) (count : Z) (recvbuf : list Z)
  : result (list Z) :=
  let blocks := concat (take (Z.to_nat count) <$> sendbufs) in
  if (length blocks <=? length recvbuf)%nat
  then Ok (blocks ++ drop (length blocks) recvbuf)
  else Undefined.

(** ** [counting_sort.c] *)

Definition key (item : Z) : Z := item.

(** The sub-array that [find_min_max] hands to [array_min_max] on the
    given rank: its first index and its number of elements (lines 73-90). *)
Definition min_max_chunk (size num_proc rank local_size : Z) : Z * Z :=
  if rank >? 0 then ((rank - 1) * local_size, local_size)
  else
    let num_leftout := wrap_int (size - local_size * num_proc) in
    ((num_proc - 1) * local_size, local_size + num_leftout).

(** [find_min_max] up to the reduction: the rank's [local_min] and
    [local_max].  Their initial values [RANGE_MAX] and [RANGE_MIN] are
    overwritten by [array_min_max] before any use. *)
Definition find_min_max_local (array : list Z) (size num_proc rank : Z)
  : result (Z * Z) :=
  local_size ← c_div size num_proc;
  let '(start, len) := min_max_chunk size num_proc rank local_size in
  array_min_max (ptr_add array start) len.

(** [find_min_max] on the whole group: the pair [(min, max)] that every
    rank holds after the two reductions. *)
Definition find_min_max (array : list Z) (size num_proc : Z) : result (list (Z * Z)) :=
  locals ← mapM (find_min_max_local array size num_proc) (ranks num_proc);
  Ok (zip (MPI_Allreduce Z.min locals.*1) (MPI_Allreduce Z.max locals.*2)).

Definition count_size_of (min max : Z) : Z := int_add (int_sub max min) 1.

(** [for (int i = 0; i < count_size; i++) a[i] = 0;] *)
Definition zero_fill (a : list Z) (count_size : Z) : result (list Z) :=
  for_range 0 count_size (λ i a, store a i 0) a.

(** [for (long long i = lo; i < hi; i++) local_count[key(array[i]) - min] += 1;] *)
Definition count_elements (array : list Z) (min lo hi : Z) (local_count : list Z)
  : result (list Z) :=
  for_range lo hi (λ i local_count,
    x ← load array i;
    add_at local_count (int_sub (key x) min) 1) local_count.

(** Bounds of the loop of lines 127-129. *)
Definition local_chunk (rank local_size : Z) : Z * Z :=
  let local_offset := rank * local_size in
  (local_offset, local_offset + local_size).

(** Bounds of the loop of lines 148-151. *)
Definition leftout_chunk (size num_proc local_size : Z) : Z * Z :=
  let index_leftout := local_size * num_proc in
  (index_leftout, size).

(** Lines 112-129, run by every rank: the rank's [local_count]. *)
Definition counting_sort_local (array : list Z) (size num_proc rank min max : Z)
  : result (list Z) :=
  local_size ← c_div size num_proc;
  let count_size := count_size_of min max in
  local_count ← safe_alloc (wrap_llong (count_size * sizeof_int));
  local_count ← zero_fill local_count count_size;
  let '(lo, hi) := local_chunk rank local_size in
  count_elements array min lo hi local_count.

(** Lines 139-164, run by rank 0: the global [count].  [sent] holds the
    [local_count] that every other rank passes to [MPI_Send]. *)
Definition global_count (array : list Z) (size num_proc min max : Z)
    (local_count : list Z) (sent : list (list Z)) : result (list Z) :=
  local_size ← c_div size num_proc;
  let count_size := count_size_of min max in
  count ← safe_alloc (wrap_llong (count_size * sizeof_int));
  count ← zero_fill count count_size;
  let '(lo, hi) := leftout_chunk size num_proc local_size in
  local_count ← count_elements array min lo hi local_count;
  '(_, count) ← for_range 0 num_proc (λ i '(local_count, count),
      local_count ← (if i >? 0 then MPI_Recv local_count count_size i sent
                     else Ok local_count);
      count ← for_range 0 count_size (λ j count,
                c ← load local_count j; add_at count j c) count;
      Ok (local_count, count)) (local_count, count);
  Ok count.

(** Lines 133 and 167-169, run by rank 0: the array is rewritten in place. *)
Definition rebuild (array count : list Z) (min max : Z) : result (list Z * Z) :=
  for_range min (int_add max 1) (λ i '(array, k),
    n ← load count (int_sub i min);
    for_range 0 n (λ _ '(array, k),
      array ← store array k i; Ok (array, k + 1)) (array, k)) (array, 0).

(** What rank 0 holds when it leaves the aggregation loop:
    [(min, max, count)]. *)
Definition counting_sort_count (array : list Z) (size num_proc : Z)
  : result (Z * Z * list Z) :=
  range ← find_min_max array size num_proc;
  locals ← mapM (λ '(rank, (min, max)),
                   counting_sort_local array size num_proc rank min max)
                (zip (ranks num_proc) range);
  '(min, max) ← of_option (range !! 0%nat);
  local_count ← of_option (locals !! 0%nat);
  count ← global_count array size num_proc min max local_count locals;
  Ok (min, max, count).

(** [counting_sort] called by every rank of the group on its copy of
    [array]: the contents of [array] on every rank when the call returns. *)
Definition counting_sort (array : list Z) (size num_proc : Z)
  : result (list (list Z)) :=
  '(min, max, count) ← counting_sort_count array size num_proc;
  '(sorted, _) ← rebuild array count min max;
  MPI_Bcast size ((λ rank, if rank =? 0 then sorted else array) <$> ranks num_proc).

End Sort.

(** ** [serial.c] *)

Module Serial.

(** [safe_alloc] and [array_min_max] of [serial.c] repeat those of
    [util.c] (without the MPI calls before [exit]). *)
Definition counting_sort (malloc : Z → bool) (array : list Z) (size : Z)
  : result (list Z) :=
  '(min, max) ← array_min_max array size;
  let count_size := count_size_of min max in
  count ← safe_alloc malloc (wrap_llong (sizeof_int * count_size));
  count ← zero_fill count count_size;
  count ← for_range 0 size (λ i count,
             x ← load array i; add_at count (int_sub x min) 1) count;
  '(array, _) ← for_range min (int_add max 1) (λ i '(array, k),
      n ← load count (i - min);
      for_range 0 n (λ _ '(array, k),
        array ← store array k (wrap_int i); Ok (array, k + 1)) (array, k)) (array, 0);
  Ok array.

End Serial.

(** ** [util.c]: random fill; [main.c] *)

Section Driver.

(** Whether the C library grants a request of the given number of bytes. *)
Variable malloc : Z → bool.

(** [RANGE_MIN] and [RANGE_MAX] of [util.h]. *)
Variables RANGE_MIN RANGE_MAX : Z.

(** [rand_r rank n] is the [n]-th value that [rand_r(&seed)] returns on the
    given rank, [rand n] the [n]-th value that [rand()] returns after
    [srand(max - min + num_proc)], which is the same on every rank. *)
Variable rand_r : Z → Z → Z.
Variable rand : Z → Z.

(** The ["%.5f"] renderings of the three measured times. *)
Variables time_init time_sort time_elapsed : string.

(** [array_init_random] called by every rank of the group: the contents
    of [array] on every rank when the call returns. *)
Definition array_init_random (array : list Z) (size min max num_proc : Z)
  : result (list Z) :=
  local_size ← c_div size num_proc;
  let index_leftout := local_size * num_proc in
  local_arrays ← mapM (λ rank,
      local_array ← safe_alloc malloc (wrap_llong (local_size * sizeof_int));
      for_range 0 local_size (λ i local_array,
        r ← c_rem (rand_r rank i) (int_sub (int_add max 1) min);
        store local_array i (int_add r min)) local_array) (ranks num_proc);
  array ← MPI_Allgather local_arrays local_size array;
  if index_leftout <? size then
    for_range index_leftout size (λ i array,
      r ← c_rem (rand (i - index_leftout)) (int_sub (int_add max 1) min);
      store array i (int_add r min)) array
  else Ok array.

(** [limits.h] *)
Definition LLONG_MIN : Z := - 2 ^ 63.
Definition LLONG_MAX : Z := 2 ^ 63 - 1.

Definition isspace (c : ascii) : bool :=
  let n := Z.of_N (N_of_ascii c) in (n =? 32) || ((9 <=? n) && (n <=? 13)).

Definition digit_value (c : ascii) : option Z :=
  let n := Z.of_N (N_of_ascii c) in
  if (48 <=? n) && (n <=? 57) then Some (n - 48) else None.

Fixpoint skip_space (s : string) : string :=
  match s with
  | String c s' => if isspace c then skip_space s' else s
  | EmptyString => s
  end.

Fixpoint digits_value (acc : Z) (s : string) : Z :=
  match s with
  | String c s' =>
      match digit_value c with
      | Some d => digits_value (10 * acc + d) s'
      | None => acc
      end
  | EmptyString => acc
  end.

(** The C library's [atoll]: optional white space, an optional sign, then
    the longest run of decimal digits; whatever follows is ignored, and no
    digits at all give 0.  Values outside [long long] are clamped, as
    [strtoll] does. *)
Definition atoll (nptr : string) : Z :=
  let s := skip_space nptr in
  let v :=
    match s with
    | String "-"%char s' => - digits_value 0 s'
    | String "+"%char s' => digits_value 0 s'
    | _ => digits_value 0 s
    end in
  Z.max LLONG_MIN (Z.min LLONG_MAX v).

(** ["%lld;%d;%.5f;%.5f;%.5f;"] *)
Definition report (size num_proc : Z) : string :=
  pretty size +:+ ";" +:+ pretty num_proc +:+ ";" +:+
  time_init +:+ ";" +:+ time_sort +:+ ";" +:+ time_elapsed +:+ ";".

(** The part of [main] between [MPI_Init] and [MPI_Finalize], on the
    given rank; the result is the array size. *)
Definition main_run (argv : list string) (num_proc rank : Z) : result Z :=
  let argc := Z.of_nat (length argv) in
  if negb (argc =? 2) then Exit EXIT_FAILURE
  else if RANGE_MAX <=? RANGE_MIN then Exit EXIT_FAILURE
  else
    arg ← of_option (argv !! 1%nat);
    let size := atoll arg in
    array ← safe_alloc malloc (wrap_llong (size * sizeof_int));
    array ← array_init_random array size RANGE_MIN RANGE_MAX num_proc;
    _ ← counting_sort malloc array size num_proc;
    Ok size.

(** [main] on the given rank: how the process ends and what it has
    written to standard output. *)
Definition main (argv : list string) (num_proc rank : Z) : result Z * string :=
  match main_run argv num_proc rank with
  | Ok size => (Ok EXIT_SUCCESS, if rank =? 0 then report size num_proc else "")
  | Exit status => (Exit status, "")
  | Undefined => (Undefined, "")
  end.

End Driver.

(** [util.h] as distributed. *)
Definition util_RANGE_MIN : Z := 0.
Definition util_RANGE_MAX : Z := 100000.

(** ** [util.c]: fill from a file *)

(** [for (i = hi; i > lo; i--) body] *)
Fixpoint for_loop_down {St : Type} (n : nat) (i : Z) (body : Z → St → result St)
    (s : St) : result St :=
  match n with
  | O => Ok s
  | S n' => s' ← body i s; for_loop_down n' (i - 1) body s'
  end.

Definition for_range_down {St : Type} (hi lo : Z) (body : Z → St → result St)
    (s : St) : result St :=
  for_loop_down (Z.to_nat (hi - lo)) hi body s.

(** [MPI_File_seek(file, offset, MPI_SEEK_SET)] followed by
    [MPI_File_read(file, buf + at, count, MPI_INT, ...)] on an open file
    that holds the [int] values [file]: the values found from byte
    [offset] on, [count] of them at most, land in [buf] from index [at]
    on.  A read that stops at the end of the file leaves the rest of the
    buffer as it was. *)
Definition MPI_File_read_at (file : list Z) (offset : Z) (buf : list Z) (at_ count : Z)
  : result (list Z) :=
  if (offset <? 0) || (at_ <? 0) || (count <? 0) then Undefined
  else
    let data := take (Z.to_nat count) (drop (Z.to_nat (offset ÷ sizeof_int)) file) in
    if Z.of_nat (length data) <=? Z.of_nat (length buf) - at_
    then Ok (take (Z.to_nat at_) buf ++ data ++
             drop (Z.to_nat at_ + length data) buf)
    else Undefined.

(** [array_init_from_file] called by every rank of the group, the file at
    [file_path] holding the [int] values [file]: the contents of [array]
    on every rank when the call returns. *)
Definition array_init_from_file (malloc : Z → bool) (array : list Z) (size : Z)
    (file : list Z) (num_proc : Z) : result (list Z) :=
  local_size ← c_div size num_proc;
  let index_leftout := local_size * num_proc in
  local_arrays ← mapM (λ rank,
      local_array ← safe_alloc malloc (wrap_llong (local_size * sizeof_int));
      MPI_File_read_at file (local_size * (rank * sizeof_int)) local_array 0 local_size)
    (ranks num_proc);
  array ← MPI_Allgather local_arrays local_size array;
  if index_leftout <? size then
    MPI_File_read_at file (index_leftout * sizeof_int) array index_leftout
      (size - index_leftout)
  else Ok array.

(** ** [test.c] *)

Module Test.

Fixpoint elements_in_range_from (n : nat) (i : Z) (array : list Z) (min max : Z)
  : result bool :=
  match n with
  | O => Ok true
  | S n' =>
      x ← load array i;
      if (x <? min) || (x >? max) then Ok false
      else elements_in_range_from n' (i + 1) array min max
  end.

(** [for (i = 0; i < size; i++) if (...) return false; return true;] *)
Definition elements_in_range (array : list Z) (size min max : Z) : result bool :=
  elements_in_range_from (Z.to_nat size) 0 array min max.

(** [test_init_random] on the group: the array every rank holds when the
    check has passed. *)
Definition test_init_random (malloc : Z → bool) (RANGE_MIN RANGE_MAX : Z)
    (rand_r : Z → Z → Z) (rand : Z → Z) (array : list Z) (size num_proc : Z)
  : result (list Z) :=
  array ← array_init_random malloc rand_r rand array size RANGE_MIN RANGE_MAX num_proc;
  ok ← elements_in_range array size RANGE_MIN RANGE_MAX;
  if (ok : bool) then Ok array else Exit EXIT_FAILURE.

Definition test_init_from_file (malloc : Z → bool) (RANGE_MIN RANGE_MAX : Z)
    (array : list Z) (size : Z) (file : list Z) (num_proc : Z) : result (list Z) :=
  array ← array_init_from_file malloc array size file num_proc;
  ok ← elements_in_range array size RANGE_MIN RANGE_MAX;
  if (ok : bool) then Ok array else Exit EXIT_FAILURE.

(** Lines 167-178 of [test_sort]: the process exits at the first element
    that is smaller than its predecessor. *)
Definition check_sorted (array : list Z) (size : Z) : result unit :=
  for_range_down (size - 1) 0 (λ i (_ : unit),
    x ← load array i;
    y ← load array (i - 1);
    if x <? y then Exit EXIT_FAILURE else Ok tt) tt.

(** [test_sort] on the group: the arrays of all ranks when every rank has
    passed the check. *)
Definition test_sort (malloc : Z → bool) (array : list Z) (size num_proc : Z)
  : result (list (list Z)) :=
  arrays ← counting_sort malloc array size num_proc;
  arrays ← MPI_Bcast size arrays;
  mapM (λ array, _ ← check_sorted array size; Ok array) arrays.

Definition NUM_SIZES : Z := 5.

Definition sizes : list Z := [10; 6053; 30000; 500009; 20000000].

(** The body of the loop of [main] for one array size.  [file] holds the
    [int] values of the file named by [argv[1]]. *)
Definition test_size (malloc : Z → bool) (RANGE_MIN RANGE_MAX : Z)
    (rand_r : Z → Z → Z) (rand : Z → Z) (argc : Z) (file : list Z)
    (size num_proc : Z) : result unit :=
  array ← safe_alloc malloc (wrap_llong (size * sizeof_int));
  array ← (if argc =? 2
           then test_init_from_file malloc RANGE_MIN RANGE_MAX array size file num_proc
           else Ok array);
  array ← test_init_random malloc RANGE_MIN RANGE_MAX rand_r rand array size num_proc;
  _ ← test_sort malloc array size num_proc;
  Ok tt.

(** [main] of [test.c] on the group; the progress messages are left out.
    [rand_r i] is the generator of the [i]-th round, whose seeds are drawn
    from the clock anew. *)
Definition main (malloc : Z → bool) (RANGE_MIN RANGE_MAX : Z)
    (rand_r : Z → Z → Z → Z) (rand : Z → Z) (argv : list string) (file : list Z)
    (num_proc : Z) : result Z :=
  let argc := Z.of_nat (length argv) in
  _ ← for_range 0 NUM_SIZES (λ i (_ : unit),
        size ← load sizes i;
        test_size malloc RANGE_MIN RANGE_MAX (rand_r i) rand argc file size num_proc) tt;
  Ok EXIT_SUCCESS.

End Test.

(** ** [serial.c]: the rest of the program *)

Module SerialProgram.

(** [rand_r n] is the [n]-th value that [rand_r(&seed)] returns. *)
Definition array_init_random (rand_r : Z → Z) (array : list Z) (size min max : Z)
  : result (list Z) :=
  for_range 0 size (λ i array,
    r ← c_rem (rand_r i) (int_sub (int_add max 1) min);
    store array i (int_add r min)) array.

(** [main] of [serial.c], with the interval macros, the generator and the
    ["%.5f"] renderings of the measured times as parameters; falling off
    the end of [main] returns 0. *)
Definition main (malloc : Z → bool) (RANGE_MIN RANGE_MAX : Z) (rand_r : Z → Z)
    (time_init time_sort time_elapsed : string) (argv : list string)
  : result Z * string :=
  let argc := Z.of_nat (length argv) in
  let run : result Z :=
    if negb (argc =? 2) then Exit EXIT_FAILURE
    else if RANGE_MAX <=? RANGE_MIN then Exit EXIT_FAILURE
    else
      arg ← of_option (argv !! 1%nat);
      let size := atoll arg in
      array ← safe_alloc malloc (wrap_llong (size * sizeof_int));
      array ← array_init_random rand_r array size RANGE_MIN RANGE_MAX;
      _ ← Serial.counting_sort malloc array size;
      Ok size in
  match run with
  | Ok size =>
      (Ok 0, pretty size +:+ ";0;" +:+ time_init +:+ ";" +:+ time_sort +:+ ";" +:+
             time_elapsed +:+ ";")
  | Exit status => (Exit status, "")
  | Undefined => (Undefined, "")
  end.

End SerialProgram.

(** [serial.c] as distributed. *)
Definition serial_RANGE_MIN : Z := 0.
Definition serial_RANGE_MAX : Z := 255.

(** * Specification vocabulary *)

(** [m] is the least element of [l]. *)
Definition is_min (l : list Z) (m : Z) : Prop := m ∈ l ∧ ∀ x, x ∈ l → m ≤ x.
(** [m] is the greatest element of [l]. *)
Definition is_max (l : list Z) (m : Z) : Prop := m ∈ l ∧ ∀ x, x ∈ l → x ≤ m.

(** Number of occurrences of [v] in [l]. *)
Definition occ (l : list Z) (v : Z) : Z := Z.of_nat (count_occ Z.eq_dec l v).

(** The elements [l[lo], ..., l[hi - 1]]. *)
Definition slice (l : list Z) (lo hi : Z) : list Z :=
  take (Z.to_nat (hi - lo)) (drop (Z.to_nat lo) l).

(** Adding to the counters [c] the occurrences in [l] of the values
    [min], [min + 1], ... *)
Definition tally (min : Z) (c : list Z) (l : list Z) : list Z :=
  imap (λ k x, x + occ l (min + Z.of_nat k)) c.

(** The sequence that a histogram with base value [min] stands for. *)
Definition expand (min : Z) (count : list Z) : list Z :=
  concat (imap (λ k c, replicate (Z.to_nat c) (min + Z.of_nat k)) count).

(** Sum of the counters of a histogram. *)
Definition sum_counts (l : list Z) : Z := foldr Z.add 0 l.

(** The input contract of the sort: the array holds [size] elements, at
    least one and no more than an [int] counter can count; the group has
    at least one process; every element lies within the declared interval
    [[RANGE_MIN, RANGE_MAX]], whose bounds and width fit [int]
    arithmetic. *)
Record sort_input (RANGE_MIN RANGE_MAX : Z) (array : list Z) (size num_proc : Z)
  : Prop := {
  input_size : size = Z.of_nat (length array);
  input_nonempty : 1 ≤ size ≤ INT_MAX;
  input_procs : 1 ≤ num_proc ≤ INT_MAX;
  input_range : INT_MIN ≤ RANGE_MIN ∧ RANGE_MAX < INT_MAX ∧
                RANGE_MAX - RANGE_MIN < INT_MAX;
  input_values : Forall (λ x, RANGE_MIN ≤ x ≤ RANGE_MAX) array;
}.

(** What a run of the sort on [array] amounts to: the range [(mn, mx)]
    that the reduction finds, the global histogram [count], the sequence
    [out] that rank 0 rebuilds from it, and the outcome of the parallel
    and of the single-process program, which both depend on the allocator
    granting the histogram. *)
Record sort_run (malloc : Z → bool) (array : list Z) (size num_proc mn mx : Z)
    (count out : list Z) : Prop := {
  run_min : is_min array mn;
  run_max : is_max array mx;
  run_count_length : Z.of_nat (length count) = mx - mn + 1;
  run_count_sum : sum_counts count = size;
  run_sorted : Sorted Z.le out;
  run_perm : out ≡ₚ array;
  run_rebuild : rebuild array count mn mx = Ok (out, size);
  run_count :
    counting_sort_count malloc array size num_proc =
      if malloc (4 * (mx - mn + 1)) then Ok (mn, mx, count) else Exit EXIT_FAILURE;
  run_parallel :
    counting_sort malloc array size num_proc =
      if malloc (4 * (mx - mn + 1)) then Ok (replicate (Z.to_nat num_proc) out)
      else Exit EXIT_FAILURE;
  run_serial :
    Serial.counting_sort malloc array size =
      if malloc (4 * (mx - mn + 1)) then Ok out else Exit EXIT_FAILURE;
}.

(** The indices that the loop of [array_min_max] visits on the given rank
    during the range reduction. *)
Definition min_max_indices (size num_proc rank : Z) : list Z :=
  let local_size := size ÷ num_proc in
  let '(start, len) := min_max_chunk size num_proc rank local_size in
  seqZ start len.

(** The indices that the counting loops visit on the given rank while the
    histograms are built (lines 127-129 and, on rank 0, 148-151). *)
Definition count_indices (size num_proc rank : Z) : list Z :=
  let local_size := size ÷ num_proc in
  let '(lo, hi) := local_chunk rank local_size in
  let '(lo', hi') := leftout_chunk size num_proc local_size in
  seqZ lo (hi - lo) ++ (if rank =? 0 then seqZ lo' (hi' - lo') else []).

(** The coordinator's share in the words of the specification: the last
    chunk of size [L] followed by the [N - L * W] leftover elements. *)
Definition spec_coordinator_indices (size num_proc : Z) : list Z :=
  let L := size ÷ num_proc in
  seqZ ((num_proc - 1) * L) L ++ seqZ (L * num_proc) (size - L * num_proc).

(** The record in the words of the specification: five fields separated
    by the delimiter. *)
Definition spec_record (fields : list string) : string := String.concat ";" fields.

(** A well-formed size argument: a non-empty run of decimal digits. *)
Definition well_formed_size (s : string) : bool :=
  match s with
  | EmptyString => false
  | _ => forallb (λ c, bool_decide (is_Some (digit_value c))) (list_ascii_of_string s)
  end.

(** Number of delimiters in a line of output. *)
Definition delimiters (s : string) : nat :=
  count_occ ascii_dec (list_ascii_of_string s) ";"%char.

(** A request that [safe_alloc] turns into [exit(EXIT_FAILURE)]. *)
Definition alloc_fails (malloc : Z → bool) (bytes : Z) : Prop :=
  bytes < 1 ∨ malloc bytes = false.

(** The runs of [main] that end in [exit(EXIT_FAILURE)]: a wrong number
    of arguments, an empty declared interval, or a refused allocation of
    the array, of the per-rank block of [array_init_random], or of the
    histogram of the generated array. *)
Definition main_fails (malloc : Z → bool) (RANGE_MIN RANGE_MAX : Z)
    (rand_r : Z → Z → Z) (rand : Z → Z) (argv : list string) (num_proc : Z) : Prop :=
  length argv ≠ 2%nat ∨
  RANGE_MAX ≤ RANGE_MIN ∨
  ∃ arg, argv !! 1%nat = Some arg ∧
    let size := atoll arg in
    (alloc_fails malloc (4 * size) ∨
     alloc_fails malloc (4 * (size ÷ num_proc)) ∨
     ∃ data mn mx,
       array_init_random malloc rand_r rand (replicate (Z.to_nat size) 0) size
         RANGE_MIN RANGE_MAX num_proc = Ok data ∧
       is_min data mn ∧ is_max data mx ∧
       alloc_fails malloc (4 * (mx - mn + 1))).

(** * Properties *)

(** ** Generic facts *)

Lemma wrap_int_id z : INT_MIN ≤ z ≤ INT_MAX → wrap_int z = z.
Proof.
  unfold INT_MIN, INT_MAX, wrap_int. intros H.
  rewrite Z.mod_small by lia. lia.
Qed.

(** Linear arithmetic with the bounds of [int] spelled out. *)
Ltac int_lia := unfold INT_MIN, INT_MAX in *; lia.

Lemma load_Ok (a : list Z) (i : Z) (v : Z) :
  load a i = Ok v ↔ 0 ≤ i ∧ a !! Z.to_nat i = Some v.
Proof.
  unfold load. destruct (Z.ltb_spec i 0).
  - split; [discriminate | lia].
  - destruct (a !! Z.to_nat i); simpl; split; intros Hv.
    + injection Hv as ->. done.
    + destruct Hv as [_ Hv]. by injection Hv as ->.
    + discriminate.
    + by destruct Hv.
Qed.

Lemma store_Ok (a : list Z) (i v : Z) :
  0 ≤ i < Z.of_nat (length a) → store a i v = Ok (<[Z.to_nat i := v]> a).
Proof.
  intros H. unfold store.
  destruct (Z.leb_spec 0 i), (Z.ltb_spec i (Z.of_nat (length a))); simpl; auto; lia.
Qed.

(** Total-correctness rule for counted loops: an invariant that every
    iteration re-establishes holds at exit, and the loop completes. *)
Lemma for_loop_inv {St : Type} (P : Z → St → Prop) (body : Z → St → result St) n :
  ∀ i s,
    P i s →
    (∀ j t, i ≤ j < i + Z.of_nat n → P j t → ∃ t', body j t = Ok t' ∧ P (j + 1) t') →
    ∃ s', for_loop n i body s = Ok s' ∧ P (i + Z.of_nat n) s'.
Proof.
  induction n as [|n IH]; intros i s HP Hstep; simpl.
  - exists s. split; [done|]. by replace (i + Z.of_nat 0) with i by lia.
  - destruct (Hstep i s) as (t & -> & Ht); [lia | done |]. simpl.
    destruct (IH (i + 1) t) as (s' & -> & Hs'); [done | |].
    + intros j u Hj Hu. apply Hstep; [lia | done].
    + exists s'. split; [done|]. by replace (i + Z.of_nat (S n)) with (i + 1 + Z.of_nat n) by lia.
Qed.

Lemma for_range_inv {St : Type} (P : Z → St → Prop) (body : Z → St → result St) lo hi s :
  lo ≤ hi →
  P lo s →
  (∀ j t, lo ≤ j < hi → P j t → ∃ t', body j t = Ok t' ∧ P (j + 1) t') →
  ∃ s', for_range lo hi body s = Ok s' ∧ P hi s'.
Proof.
  intros Hle HP Hstep. unfold for_range.
  destruct (for_loop_inv P body (Z.to_nat (hi - lo)) lo s) as (s' & Hs' & HP');
    [done | | ].
  - intros j t Hj. apply Hstep. lia.
  - exists s'. split; [done|].
    by replace (lo + Z.of_nat (Z.to_nat (hi - lo))) with hi in HP' by lia.
Qed.

Lemma for_range_empty {St : Type} (body : Z → St → result St) lo hi s :
  hi ≤ lo → for_range lo hi body s = Ok s.
Proof. intros H. unfold for_range. by replace (Z.to_nat (hi - lo)) with 0%nat by lia. Qed.

Lemma mapM_Ok {A B : Type} (Q : A → B → Prop) (f : A → result B) (l : list A) :
  (∀ x, x ∈ l → ∃ y, f x = Ok y ∧ Q x y) →
  ∃ ys, mapM f l = Ok ys ∧ Forall2 Q l ys.
Proof.
  induction l as [|x l IH]; intros Hf; simpl.
  - exists []. split; [done | constructor].
  - destruct (Hf x) as (y & Hy & HQ); [left|].
    destruct IH as (ys & Hys & HF); [intros z Hz; apply Hf; by right|].
    exists (y :: ys). rewrite Hy. simpl. rewrite Hys. simpl.
    split; [done | by constructor].
Qed.

Lemma mapM_Exit {A B : Type} (f : A → result B) (x : A) (l : list A) st :
  f x = Exit st → mapM f (x :: l) = Exit st.
Proof. intros H. simpl. by rewrite H. Qed.

Lemma elem_of_slice (l : list Z) (lo hi : Z) (x : Z) :
  0 ≤ lo →
  x ∈ slice l lo hi ↔ ∃ i : nat, lo ≤ Z.of_nat i < hi ∧ l !! i = Some x.
Proof.
  intros Hlo. unfold slice. rewrite elem_of_take. split.
  - intros (i & Hi & Hlt). rewrite lookup_drop in Hi.
    exists (Z.to_nat lo + i)%nat. split; [lia | done].
  - intros (i & Hi & Hx). exists (i - Z.to_nat lo)%nat. rewrite lookup_drop.
    replace (Z.to_nat lo + (i - Z.to_nat lo))%nat with i by lia.
    split; [done | lia].
Qed.

Lemma ptr_add_lookup (a : list Z) (k : Z) (i : nat) :
  0 ≤ k → ptr_add a k !! i = a !! (Z.to_nat k + i)%nat.
Proof.
  intros Hk. unfold ptr_add. destruct (Z.ltb_spec k 0); [lia|]. apply lookup_drop.
Qed.

Lemma take_ptr_add (a : list Z) (k n : Z) :
  0 ≤ k → take (Z.to_nat n) (ptr_add a k) = slice a k (k + n).
Proof.
  intros Hk. unfold ptr_add, slice. destruct (Z.ltb_spec k 0); [lia|].
  by replace (k + n - k) with n by lia.
Qed.

(** ** [array_min_max] *)

Lemma is_min_snoc l m x :
  is_min l m → is_min (l ++ [x]) (if x <? m then x else m).
Proof.
  intros [Hin Hle]. destruct (Z.ltb_spec x m); split.
  - apply elem_of_app. right. by left.
  - intros y [Hy | ->%list_elem_of_singleton]%elem_of_app; [apply Hle in Hy|]; lia.
  - apply elem_of_app. by left.
  - intros y [Hy | ->%list_elem_of_singleton]%elem_of_app; [by apply Hle | lia].
Qed.

Lemma is_max_snoc l m x :
  is_max l m → is_max (l ++ [x]) (if x >? m then x else m).
Proof.
  intros [Hin Hle]. rewrite Z.gtb_ltb. destruct (Z.ltb_spec m x); split.
  - apply elem_of_app. right. by left.
  - intros y [Hy | ->%list_elem_of_singleton]%elem_of_app; [apply Hle in Hy|]; lia.
  - apply elem_of_app. by left.
  - intros y [Hy | ->%list_elem_of_singleton]%elem_of_app; [by apply Hle | lia].
Qed.

(** The loop of [array_min_max] keeps [min <= max]; this is why skipping
    the second comparison after an update of [min] loses nothing. *)
Lemma array_min_max_spec (array : list Z) (size a0 : Z) :
  array !! 0%nat = Some a0 →
  0 ≤ size ≤ Z.of_nat (length array) →
  ∃ mn mx, array_min_max array size = Ok (mn, mx) ∧
           is_min (a0 :: take (Z.to_nat size) array) mn ∧
           is_max (a0 :: take (Z.to_nat size) array) mx.
Proof.
  intros H0 Hsize. unfold array_min_max.
  assert (load array 0 = Ok a0) as -> by (by apply load_Ok). simpl.
  edestruct (for_range_inv
    (λ i '(mn, mx), is_min (a0 :: take (Z.to_nat i) array) mn ∧
                    is_max (a0 :: take (Z.to_nat i) array) mx ∧ mn ≤ mx))
    as ([mn mx] & Hrun & Hmn & Hmx & _); [| | | rewrite Hrun].
  - lia.
  - simpl. repeat split; try (by left); try lia;
      intros y ->%list_elem_of_singleton; lia.
  - intros j [mn mx] Hj (Hmn & Hmx & Hle).
    destruct (lookup_lt_is_Some_2 array (Z.to_nat j)) as [x Hx]; [lia|].
    assert (load array j = Ok x) as -> by (apply load_Ok; split; [lia | done]).
    simpl. replace (Z.to_nat (j + 1)) with (S (Z.to_nat j)) by lia.
    rewrite (take_S_r _ _ _ Hx), !app_comm_cons.
    pose proof (is_min_snoc _ _ x Hmn) as Hmn'.
    pose proof (is_max_snoc _ _ x Hmx) as Hmx'.
    rewrite Z.gtb_ltb in *.
    destruct (Z.ltb_spec x mn), (Z.ltb_spec mx x); try lia;
      eexists; (split; [reflexivity|]); repeat split;
      try apply Hmn'; try apply Hmx'; try apply Hmn; try apply Hmx; try lia.
  - by exists mn, mx.
Qed.

Lemma is_min_cons_elem l a m : a ∈ l → is_min (a :: l) m → is_min l m.
Proof.
  intros Ha [Hin Hle]. split.
  - apply elem_of_cons in Hin as [->|]; done.
  - intros x Hx. apply Hle. by right.
Qed.

Lemma is_max_cons_elem l a m : a ∈ l → is_max (a :: l) m → is_max l m.
Proof.
  intros Ha [Hin Hle]. split.
  - apply elem_of_cons in Hin as [->|]; done.
  - intros x Hx. apply Hle. by right.
Qed.

(** ** The partition *)

Lemma local_size_bounds (size num_proc : Z) :
  0 ≤ size → 1 ≤ num_proc →
  0 ≤ size ÷ num_proc ∧
  (size ÷ num_proc) * num_proc ≤ size < (size ÷ num_proc) * num_proc + num_proc.
Proof.
  intros Hs Hw. rewrite Z.quot_div_nonneg by lia.
  pose proof (Z.div_mod size num_proc ltac:(lia)) as Hdm.
  pose proof (Z.mod_pos_bound size num_proc ltac:(lia)) as Hmod.
  pose proof (Z.div_pos size num_proc ltac:(lia) ltac:(lia)) as Hpos.
  nia.
Qed.

Lemma c_div_Ok (a b : Z) : 1 ≤ b → c_div a b = Ok (a ÷ b).
Proof. intros H. unfold c_div. destruct (Z.eqb_spec b 0); [lia | done]. Qed.

Lemma min_max_chunk_eq (size num_proc rank : Z) :
  0 ≤ size → 1 ≤ num_proc ≤ INT_MAX → 0 ≤ rank < num_proc →
  min_max_chunk size num_proc rank (size ÷ num_proc) =
    if rank =? 0
    then ((num_proc - 1) * (size ÷ num_proc), size - (num_proc - 1) * (size ÷ num_proc))
    else ((rank - 1) * (size ÷ num_proc), size ÷ num_proc).
Proof.
  intros Hs Hw Hr. destruct (local_size_bounds size num_proc) as [HL Hb]; [lia..|].
  unfold min_max_chunk. rewrite Z.gtb_ltb.
  destruct (Z.ltb_spec 0 rank), (Z.eqb_spec rank 0); try lia; [done|].
  rewrite wrap_int_id by int_lia. f_equal. lia.
Qed.

(** Every index of the array is read by some rank during the range
    reduction. *)
Lemma min_max_indices_cover (size num_proc i : Z) :
  1 ≤ num_proc ≤ INT_MAX → 0 ≤ i < size →
  ∃ rank, 0 ≤ rank < num_proc ∧ i ∈ min_max_indices size num_proc rank.
Proof.
  intros Hw Hi. destruct (local_size_bounds size num_proc) as [HL Hb]; [lia..|].
  unfold min_max_indices.
  destruct (Z_lt_le_dec i ((num_proc - 1) * (size ÷ num_proc))) as [Hlt | Hge].
  - assert (0 < size ÷ num_proc) as HLpos by nia.
    exists (i / (size ÷ num_proc) + 1).
    pose proof (Z.div_mod i (size ÷ num_proc) ltac:(lia)) as Hdm.
    pose proof (Z.mod_pos_bound i (size ÷ num_proc) HLpos) as Hmod.
    pose proof (Z.div_pos i (size ÷ num_proc) ltac:(lia) HLpos) as Hpos.
    assert (i / (size ÷ num_proc) < num_proc - 1) as Hq by nia.
    split; [lia|].
    rewrite min_max_chunk_eq by lia.
    destruct (Z.eqb_spec (i / (size ÷ num_proc) + 1) 0); [lia|].
    apply elem_of_seqZ. nia.
  - exists 0. split; [lia|]. rewrite min_max_chunk_eq by lia. simpl.
    apply elem_of_seqZ. lia.
Qed.

(** ** [find_min_max] *)

Lemma find_min_max_local_spec (array : list Z) (size num_proc rank : Z) :
  size = Z.of_nat (length array) → 1 ≤ size →
  1 ≤ num_proc ≤ INT_MAX → 0 ≤ rank < num_proc →
  ∃ mn mx, find_min_max_local array size num_proc rank = Ok (mn, mx) ∧
           mn ∈ array ∧ mx ∈ array ∧
           ∀ (i : nat) x, Z.of_nat i ∈ min_max_indices size num_proc rank →
                          array !! i = Some x → mn ≤ x ≤ mx.
Proof.
  intros Hlen Hsize Hw Hr.
  destruct (local_size_bounds size num_proc) as [HL Hb]; [lia..|].
  unfold find_min_max_local, min_max_indices. rewrite c_div_Ok by lia. simpl.
  rewrite min_max_chunk_eq by lia.
  set (chunk := if rank =? 0 then _ else _).
  assert (0 ≤ chunk.1 ∧ 0 ≤ chunk.2 ∧ chunk.1 < size ∧ chunk.1 + chunk.2 ≤ size)
    as (Hs0 & Hl0 & Hs1 & Hl1).
  { unfold chunk. destruct (Z.eqb_spec rank 0); simpl; nia. }
  destruct chunk as [start len]. simpl in *.
  destruct (lookup_lt_is_Some_2 array (Z.to_nat start)) as [a0 Ha0]; [lia|].
  destruct (array_min_max_spec (ptr_add array start) len a0)
    as (mn & mx & Hrun & Hmn & Hmx).
  { rewrite ptr_add_lookup by lia. by rewrite Nat.add_0_r. }
  { unfold ptr_add. destruct (Z.ltb_spec start 0); [lia|]. rewrite length_drop. lia. }
  rewrite take_ptr_add in Hmn, Hmx by lia.
  assert (∀ y, y ∈ a0 :: slice array start (start + len) → y ∈ array) as Hsub.
  { intros y [->|Hy]%elem_of_cons.
    - apply list_elem_of_lookup. eauto.
    - apply elem_of_slice in Hy as (i & _ & Hi); [|lia].
      apply list_elem_of_lookup. eauto. }
  exists mn, mx. split; [done|]. split; [apply Hsub, Hmn|]. split; [apply Hsub, Hmx|].
  intros i x Hi Hx. apply elem_of_seqZ in Hi.
  assert (x ∈ a0 :: slice array start (start + len)) as Hin.
  { right. apply elem_of_slice; [lia|]. exists i. split; [lia | done]. }
  split; [by apply Hmn | by apply Hmx].
Qed.

Lemma foldl_min_is_min (xs : list Z) : ∀ x, is_min (x :: xs) (foldl Z.min x xs).
Proof.
  induction xs as [|y ys IH]; intros x; simpl.
  - split; [by left|]. intros z ->%list_elem_of_singleton. lia.
  - destruct (IH (Z.min x y)) as [Hin Hle]. split.
    + apply elem_of_cons in Hin as [-> | Hin]; [|by do 2 right].
      destruct (Z.min_spec x y) as [[_ ->] | [_ ->]]; [by left | right; by left].
    + intros z Hz. pose proof (Hle (Z.min x y) ltac:(by left)) as Hm.
      apply elem_of_cons in Hz as [-> | [-> | Hz]%elem_of_cons]; [lia | lia |].
      apply Hle. by right.
Qed.

Lemma foldl_max_is_max (xs : list Z) : ∀ x, is_max (x :: xs) (foldl Z.max x xs).
Proof.
  induction xs as [|y ys IH]; intros x; simpl.
  - split; [by left|]. intros z ->%list_elem_of_singleton. lia.
  - destruct (IH (Z.max x y)) as [Hin Hle]. split.
    + apply elem_of_cons in Hin as [-> | Hin]; [|by do 2 right].
      destruct (Z.max_spec x y) as [[_ ->] | [_ ->]]; [right; by left | by left].
    + intros z Hz. pose proof (Hle (Z.max x y) ltac:(by left)) as Hm.
      apply elem_of_cons in Hz as [-> | [-> | Hz]%elem_of_cons]; [lia | lia |].
      apply Hle. by right.
Qed.

Lemma MPI_Allreduce_cons (op : Z → Z → Z) (x : Z) (xs : list Z) :
  MPI_Allreduce op (x :: xs) = replicate (S (length xs)) (foldl op x xs).
Proof. done. Qed.

Lemma ranks_cons (num_proc : Z) :
  1 ≤ num_proc → ranks num_proc = 0 :: seqZ 1 (num_proc - 1).
Proof. intros H. unfold ranks. by rewrite seqZ_cons by lia. Qed.

Lemma length_ranks (num_proc : Z) : length (ranks num_proc) = Z.to_nat num_proc.
Proof. apply length_seqZ. Qed.

Lemma find_min_max_spec (array : list Z) (size num_proc : Z) :
  size = Z.of_nat (length array) → 1 ≤ size → 1 ≤ num_proc ≤ INT_MAX →
  ∃ mn mx, find_min_max array size num_proc
             = Ok (replicate (Z.to_nat num_proc) (mn, mx)) ∧
           is_min array mn ∧ is_max array mx.
Proof.
  intros Hlen Hsize Hw. unfold find_min_max.
  destruct (mapM_Ok
    (λ rank '(mn, mx), mn ∈ array ∧ mx ∈ array ∧
       ∀ (i : nat) x, Z.of_nat i ∈ min_max_indices size num_proc rank →
                      array !! i = Some x → mn ≤ x ≤ mx)
    (find_min_max_local array size num_proc) (ranks num_proc))
    as (locals & -> & HF).
  { intros rank Hrank%elem_of_seqZ.
    destruct (find_min_max_local_spec array size num_proc rank)
      as (mn & mx & ? & ?); [done | done | lia | lia |]. by exists (mn, mx). }
  simpl. pose proof (Forall2_length _ _ _ HF) as Hlocals.
  rewrite length_ranks in Hlocals.
  destruct locals as [|[mn0 mx0] locals]; [simpl in Hlocals; lia|].
  set (all := (mn0, mx0) :: locals) in *.
  exists (foldl Z.min mn0 locals.*1), (foldl Z.max mx0 locals.*2).
  pose proof (foldl_min_is_min locals.*1 mn0) as [Hmin_in Hmin_le].
  pose proof (foldl_max_is_max locals.*2 mx0) as [Hmax_in Hmax_le].
  change (mn0 :: locals.*1) with (all.*1) in Hmin_in, Hmin_le.
  change (mx0 :: locals.*2) with (all.*2) in Hmax_in, Hmax_le.
  split; [|split; split].
  - unfold all. rewrite !fmap_cons, !MPI_Allreduce_cons, !length_fmap.
    rewrite zip_with_replicate. simpl in Hlocals.
    by replace (Z.to_nat num_proc) with (S (length locals)) by lia.
  - apply list_elem_of_fmap in Hmin_in as ([mn mx] & Heq & Hin).
    apply list_elem_of_lookup in Hin as [r Hr].
    destruct (Forall2_lookup_r _ _ _ _ _ HF Hr) as (rank & _ & Hmn & _).
    simpl in Heq. by subst.
  - intros x [i Hi]%list_elem_of_lookup.
    destruct (min_max_indices_cover size num_proc (Z.of_nat i)) as (rank & Hrank & Hcov);
      [lia | apply lookup_lt_Some in Hi; lia |].
    destruct (lookup_lt_is_Some_2 (ranks num_proc) (Z.to_nat rank)) as [rank' Hr'];
      [rewrite length_ranks; lia|].
    pose proof Hr' as Hr''. apply lookup_seqZ in Hr'' as [-> _].
    rewrite Z2Nat.id in * by lia. simpl in Hr'.
    destruct (Forall2_lookup_l _ _ _ _ _ HF Hr') as ([mn mx] & Hloc & _ & _ & Hbound).
    destruct (Hbound i x Hcov Hi) as [Hle _].
    assert (mn ∈ all.*1) as Hin.
    { apply list_elem_of_fmap. exists (mn, mx). split; [done|].
      apply list_elem_of_lookup. eauto. }
    apply Hmin_le in Hin. lia.
  - apply list_elem_of_fmap in Hmax_in as ([mn mx] & Heq & Hin).
    apply list_elem_of_lookup in Hin as [r Hr].
    destruct (Forall2_lookup_r _ _ _ _ _ HF Hr) as (rank & _ & _ & Hmx & _).
    simpl in Heq. by subst.
  - intros x [i Hi]%list_elem_of_lookup.
    destruct (min_max_indices_cover size num_proc (Z.of_nat i)) as (rank & Hrank & Hcov);
      [lia | apply lookup_lt_Some in Hi; lia |].
    destruct (lookup_lt_is_Some_2 (ranks num_proc) (Z.to_nat rank)) as [rank' Hr'];
      [rewrite length_ranks; lia|].
    pose proof Hr' as Hr''. apply lookup_seqZ in Hr'' as [-> _].
    rewrite Z2Nat.id in * by lia. simpl in Hr'.
    destruct (Forall2_lookup_l _ _ _ _ _ HF Hr') as ([mn mx] & Hloc & _ & _ & Hbound).
    destruct (Hbound i x Hcov Hi) as [_ Hle].
    assert (mx ∈ all.*2) as Hin.
    { apply list_elem_of_fmap. exists (mn, mx). split; [done|].
      apply list_elem_of_lookup. eauto. }
    apply Hmax_le in Hin. lia.
Qed.

(** ** Occurrences and tallies *)

Lemma occ_nil v : occ [] v = 0.
Proof. done. Qed.

Lemma occ_app l1 l2 v : occ (l1 ++ l2) v = occ l1 v + occ l2 v.
Proof. unfold occ. rewrite count_occ_app. lia. Qed.

Lemma occ_singleton x v : occ [x] v = if decide (x = v) then 1 else 0.
Proof. unfold occ. simpl. destruct (Z.eq_dec x v), (decide (x = v)); done. Qed.

Lemma occ_bounds l v : 0 ≤ occ l v ≤ Z.of_nat (length l).
Proof. unfold occ. pose proof (count_occ_bound Z.eq_dec v l). lia. Qed.

Lemma occ_not_elem l v : v ∉ l → occ l v = 0.
Proof.
  intros Hv. unfold occ. rewrite list_elem_of_In in Hv.
  apply (count_occ_not_In Z.eq_dec) in Hv. lia.
Qed.

Lemma length_tally mn c l : length (tally mn c l) = length c.
Proof. apply length_imap. Qed.

Lemma tally_lookup mn c l (k : nat) :
  tally mn c l !! k = (λ x, x + occ l (mn + Z.of_nat k)) <$> c !! k.
Proof. apply list_lookup_imap. Qed.

Lemma tally_nil mn c : tally mn c [] = c.
Proof.
  apply list_eq. intros k. rewrite tally_lookup.
  destruct (c !! k); simpl; [f_equal; rewrite occ_nil; lia | done].
Qed.

Lemma tally_app mn c l1 l2 : tally mn (tally mn c l1) l2 = tally mn c (l1 ++ l2).
Proof.
  apply list_eq. intros k. rewrite !tally_lookup.
  destruct (c !! k); simpl; [f_equal; rewrite occ_app; lia | done].
Qed.

Lemma tally_ext mn c l l' : (∀ v, occ l v = occ l' v) → tally mn c l = tally mn c l'.
Proof.
  intros H. apply list_eq. intros k. rewrite !tally_lookup. by rewrite H.
Qed.

Lemma tally_snoc mn c l x (k : nat) v :
  x - mn = Z.of_nat k →
  tally mn c l !! k = Some v →
  tally mn c (l ++ [x]) = <[k := v + 1]> (tally mn c l).
Proof.
  intros Hk Hv. apply list_eq. intros j.
  pose proof (lookup_lt_Some _ _ _ Hv) as Hlt.
  destruct (decide (k = j)) as [<- | Hne].
  - rewrite list_lookup_insert_eq by done.
    rewrite tally_lookup in *. destruct (c !! k); [|done]. simpl in *.
    injection Hv as <-. f_equal. rewrite occ_app, occ_singleton.
    destruct (decide (x = mn + Z.of_nat k)); lia.
  - rewrite list_lookup_insert_ne by done. rewrite !tally_lookup.
    destruct (c !! j); [|done]. simpl. f_equal.
    rewrite occ_app, occ_singleton.
    destruct (decide (x = mn + Z.of_nat j)); lia.
Qed.

Lemma zip_tally mn (n : nat) l1 l2 :
  zip_with Z.add (tally mn (replicate n 0) l1) (tally mn (replicate n 0) l2)
  = tally mn (replicate n 0) (l1 ++ l2).
Proof.
  apply list_eq. intros k. rewrite lookup_zip_with, !tally_lookup.
  destruct (replicate n 0 !! k) as [z|] eqn:Hz; [|done]. simpl.
  apply lookup_replicate in Hz as [-> _]. f_equal. rewrite occ_app. lia.
Qed.

Lemma slice_app (l : list Z) (a b c : Z) :
  0 ≤ a ≤ b → b ≤ c → slice l a b ++ slice l b c = slice l a c.
Proof.
  intros Hab Hbc. unfold slice.
  replace (Z.to_nat b) with (Z.to_nat a + Z.to_nat (b - a))%nat by lia.
  rewrite <- drop_drop, take_take_drop. f_equal. lia.
Qed.

Lemma slice_all (l : list Z) : slice l 0 (Z.of_nat (length l)) = l.
Proof. unfold slice. simpl. rewrite Z.sub_0_r, Nat2Z.id. apply take_ge. lia. Qed.

Lemma length_slice (l : list Z) (a b : Z) :
  0 ≤ a ≤ b → b ≤ Z.of_nat (length l) → Z.of_nat (length (slice l a b)) = b - a.
Proof. intros Ha Hb. unfold slice. rewrite length_take, length_drop. lia. Qed.

Lemma slice_snoc (l : list Z) (a b : Z) x :
  0 ≤ a ≤ b → l !! Z.to_nat b = Some x → slice l a (b + 1) = slice l a b ++ [x].
Proof.
  intros Hab Hx. unfold slice.
  replace (Z.to_nat (b + 1 - a)) with (S (Z.to_nat (b - a))) by lia.
  apply take_S_r. rewrite lookup_drop. by replace (Z.to_nat a + Z.to_nat (b - a))%nat
    with (Z.to_nat b) by lia.
Qed.

(** ** Allocation and the counting loops *)

Lemma safe_alloc_count malloc (n : Z) :
  1 ≤ n ≤ INT_MAX →
  safe_alloc malloc (wrap_llong (n * sizeof_int)) =
    if malloc (4 * n) then Ok (replicate (Z.to_nat n) 0) else Exit EXIT_FAILURE.
Proof.
  intros Hn. unfold INT_MAX in Hn.
  assert (wrap_llong (n * sizeof_int) = 4 * n) as ->.
  { unfold wrap_llong, sizeof_int. rewrite Z.mod_small by lia. lia. }
  unfold safe_alloc. destruct (Z.ltb_spec (4 * n) 1); [lia|].
  destruct (malloc (4 * n)); [|done]. unfold sizeof_int.
  by replace (4 * n / 4) with n by (rewrite Z.mul_comm, Z.div_mul; lia).
Qed.

Lemma zero_fill_replicate (n : Z) :
  0 ≤ n → zero_fill (replicate (Z.to_nat n) 0) n = Ok (replicate (Z.to_nat n) 0).
Proof.
  intros Hn. unfold zero_fill.
  edestruct (for_range_inv (λ _ a, a = replicate (Z.to_nat n) 0))
    as (a & -> & ->); [| | | done].
  - lia.
  - done.
  - intros j t Hj ->. rewrite store_Ok by (rewrite length_replicate; lia).
    rewrite insert_replicate. eauto.
Qed.

Lemma add_at_Ok (a : list Z) (i d v : Z) :
  0 ≤ i → a !! Z.to_nat i = Some v → INT_MIN ≤ v + d ≤ INT_MAX →
  add_at a i d = Ok (<[Z.to_nat i := v + d]> a).
Proof.
  intros Hi Hv Hb. unfold add_at.
  assert (load a i = Ok v) as -> by (by apply load_Ok). simpl.
  unfold int_add. rewrite wrap_int_id by done.
  apply store_Ok. apply lookup_lt_Some in Hv. lia.
Qed.

Lemma count_elements_spec (array : list Z) (mn lo hi : Z) (c : list Z) :
  0 ≤ lo ≤ hi → hi ≤ Z.of_nat (length array) →
  Z.of_nat (length c) ≤ INT_MAX →
  (∀ x, x ∈ array → 0 ≤ x - mn < Z.of_nat (length c)) →
  (∀ k v, c !! k = Some v → 0 ≤ v ∧ v + (hi - lo) ≤ INT_MAX) →
  count_elements array mn lo hi c = Ok (tally mn c (slice array lo hi)).
Proof.
  intros Hlo Hhi Hlen Hval Hcnt. unfold count_elements.
  edestruct (for_range_inv (λ i t, t = tally mn c (slice array lo i)))
    as (t & -> & ->); [| | | done].
  - lia.
  - unfold slice. rewrite Z.sub_diag. simpl. by rewrite tally_nil.
  - intros j t Hj ->.
    destruct (lookup_lt_is_Some_2 array (Z.to_nat j)) as [x Hx]; [lia|].
    assert (load array j = Ok x) as -> by (apply load_Ok; split; [lia | done]).
    simpl. unfold key.
    destruct (Hval x) as [Hx0 Hx1]; [apply list_elem_of_lookup; eauto|].
    unfold int_sub. rewrite wrap_int_id by int_lia.
    destruct (lookup_lt_is_Some_2 c (Z.to_nat (x - mn))) as [v0 Hv0]; [lia|].
    destruct (Hcnt _ _ Hv0) as [Hv0pos Hv0max].
    pose proof (occ_bounds (slice array lo j) (mn + Z.of_nat (Z.to_nat (x - mn)))) as Hocc.
    rewrite length_slice in Hocc by lia.
    assert (tally mn c (slice array lo j) !! Z.to_nat (x - mn)
            = Some (v0 + occ (slice array lo j) (mn + Z.of_nat (Z.to_nat (x - mn)))))
      as Hv by (by rewrite tally_lookup, Hv0).
    rewrite (add_at_Ok _ _ _ _ Hx0 Hv) by int_lia.
    eexists. split; [done|].
    rewrite (slice_snoc array lo j x) by (done || lia).
    symmetry. apply tally_snoc; [lia | done].
Qed.

Lemma add_counts_spec (count lc : list Z) (n : Z) :
  Z.of_nat (length count) = n → Z.of_nat (length lc) = n →
  (∀ k a b, count !! k = Some a → lc !! k = Some b → INT_MIN ≤ a + b ≤ INT_MAX) →
  for_range 0 n (λ j count, c ← load lc j; add_at count j c) count
  = Ok (zip_with Z.add count lc).
Proof.
  intros Hc Hl Hb.
  edestruct (for_range_inv
    (λ j t, t = take (Z.to_nat j) (zip_with Z.add count lc) ++ drop (Z.to_nat j) count))
    as (t & -> & ->).
  - lia.
  - done.
  - intros j t Hj ->.
    destruct (lookup_lt_is_Some_2 count (Z.to_nat j)) as [a Ha]; [lia|].
    destruct (lookup_lt_is_Some_2 lc (Z.to_nat j)) as [b Hb']; [lia|].
    assert (load lc j = Ok b) as -> by (apply load_Ok; split; [lia | done]).
    simpl.
    assert (length (take (Z.to_nat j) (zip_with Z.add count lc)) = Z.to_nat j) as Hlen.
    { rewrite length_take, length_zip_with. lia. }
    erewrite add_at_Ok; [| lia | | by eapply Hb].
    2:{ rewrite lookup_app_r by lia. rewrite Hlen, Nat.sub_diag, lookup_drop.
        by rewrite Nat.add_0_r. }
    eexists. split; [done|].
    rewrite insert_app_r_alt by lia. rewrite Hlen, Nat.sub_diag.
    rewrite (drop_S _ _ _ Ha). simpl.
    replace (Z.to_nat (j + 1)) with (S (Z.to_nat j)) by lia.
    erewrite take_S_r; [by rewrite <- app_assoc|].
    by rewrite lookup_zip_with, Ha, Hb'.
  - f_equal. rewrite take_ge, drop_ge by (rewrite ?length_zip_with; lia).
    apply app_nil_r.
Qed.

Lemma tally_zeros_bounds mn (n : nat) l (k : nat) a :
  tally mn (replicate n 0) l !! k = Some a → 0 ≤ a ≤ Z.of_nat (length l).
Proof.
  rewrite tally_lookup. destruct (replicate n 0 !! k) as [z|] eqn:Hz; [|done].
  apply lookup_replicate in Hz as [-> _]. simpl. intros [= <-].
  pose proof (occ_bounds l (mn + Z.of_nat k)). lia.
Qed.

Lemma for_range_ext {St : Type} (f g : Z → St → result St) lo hi s :
  (∀ j t, lo ≤ j < hi → f j t = g j t) →
  for_range lo hi f s = for_range lo hi g s.
Proof.
  unfold for_range. intros Hfg.
  assert (∀ n i s, lo ≤ i → i + Z.of_nat n ≤ Z.max lo hi →
                   for_loop n i f s = for_loop n i g s) as Hloop.
  { induction n as [|n IH]; intros i t Hi Hn; simpl; [done|].
    rewrite Hfg by lia. destruct (g i t); simpl; [|done..]. apply IH; lia. }
  apply Hloop; lia.
Qed.

(** ** Histograms and the sequences they stand for *)

Lemma sum_counts_app l1 l2 : sum_counts (l1 ++ l2) = sum_counts l1 + sum_counts l2.
Proof. induction l1 as [|x l1 IH]; simpl; lia. Qed.

Lemma sum_counts_nonneg l : Forall (λ c, 0 ≤ c) l → 0 ≤ sum_counts l.
Proof. induction 1; simpl; lia. Qed.

Lemma sum_counts_take l (k : nat) :
  Forall (λ c, 0 ≤ c) l → sum_counts (take k l) ≤ sum_counts l.
Proof.
  intros Hl. rewrite <- (take_drop k l) at 2. rewrite sum_counts_app.
  pose proof (sum_counts_nonneg (drop k l) (Forall_drop _ _ _ Hl)). lia.
Qed.

Lemma expand_cons mn c cs :
  expand mn (c :: cs) = replicate (Z.to_nat c) mn ++ expand (mn + 1) cs.
Proof.
  unfold expand. rewrite imap_cons. simpl. rewrite Z.add_0_r. f_equal. f_equal.
  apply imap_ext. intros k x _. simpl. f_equal. lia.
Qed.

Lemma expand_snoc mn cs c :
  expand mn (cs ++ [c]) = expand mn cs ++ replicate (Z.to_nat c) (mn + Z.of_nat (length cs)).
Proof.
  unfold expand. rewrite imap_app, concat_app. simpl.
  by rewrite Nat.add_0_r, app_nil_r.
Qed.

Lemma length_expand cs : ∀ mn,
  Forall (λ c, 0 ≤ c) cs → Z.of_nat (length (expand mn cs)) = sum_counts cs.
Proof.
  induction cs as [|c cs IH]; intros mn Hcs; [done|].
  apply Forall_cons in Hcs as [Hc Hcs].
  rewrite expand_cons, length_app, length_replicate, Nat2Z.inj_add, IH by done.
  simpl. lia.
Qed.

Lemma elem_of_expand cs : ∀ mn x,
  x ∈ expand mn cs → mn ≤ x < mn + Z.of_nat (length cs).
Proof.
  induction cs as [|c cs IH]; intros mn x Hx.
  - by apply elem_of_nil in Hx.
  - rewrite expand_cons in Hx. apply elem_of_app in Hx as [Hx | Hx].
    + apply elem_of_replicate in Hx as [-> _]. simpl. lia.
    + apply IH in Hx. simpl. lia.
Qed.

Lemma occ_replicate (k : nat) x v :
  occ (replicate k x) v = if decide (x = v) then Z.of_nat k else 0.
Proof.
  induction k as [|k IH]; simpl.
  - by destruct (decide (x = v)).
  - change (x :: replicate k x) with ([x] ++ replicate k x).
    rewrite occ_app, occ_singleton, IH. destruct (decide (x = v)); lia.
Qed.

Lemma occ_expand_in cs : ∀ mn (k : nat) c,
  Forall (λ c, 0 ≤ c) cs → cs !! k = Some c →
  occ (expand mn cs) (mn + Z.of_nat k) = c.
Proof.
  induction cs as [|c0 cs IH]; intros mn k c Hcs Hk; [done|].
  apply Forall_cons in Hcs as [Hc0 Hcs].
  rewrite expand_cons, occ_app, occ_replicate. destruct k as [|k]; simpl in Hk.
  - injection Hk as ->. rewrite occ_not_elem.
    + destruct (decide (mn = mn + Z.of_nat 0)); lia.
    + intros Hin%elem_of_expand. lia.
  - replace (mn + Z.of_nat (S k)) with (mn + 1 + Z.of_nat k) by lia.
    rewrite (IH _ _ _ Hcs Hk). destruct (decide (mn = mn + 1 + Z.of_nat k)); lia.
Qed.

Lemma StronglySorted_expand cs : ∀ mn, StronglySorted Z.le (expand mn cs).
Proof.
  induction cs as [|c cs IH]; intros mn; [constructor|].
  rewrite expand_cons. apply StronglySorted_app_2; [| |apply IH].
  - intros x y [-> _]%elem_of_replicate Hy%elem_of_expand. lia.
  - induction (Z.to_nat c) as [|k IHk]; simpl; constructor; [done|].
    apply Forall_forall. intros y [-> _]%elem_of_replicate. lia.
Qed.

(** The expansion of the histogram of [l] is a rearrangement of [l]. *)
Lemma expand_tally_perm mn (n : nat) l :
  (∀ x, x ∈ l → 0 ≤ x - mn < Z.of_nat n) →
  expand mn (tally mn (replicate n 0) l) ≡ₚ l.
Proof.
  intros Hl. set (h := tally mn (replicate n 0) l).
  assert (Forall (λ c, 0 ≤ c) h) as Hh.
  { apply Forall_lookup. intros k c Hc. by apply tally_zeros_bounds in Hc as [? _]. }
  apply (Permutation_count_occ Z.eq_dec). intros v.
  apply Nat2Z.inj. change (occ (expand mn h) v = occ l v).
  destruct (decide (0 ≤ v - mn < Z.of_nat n)) as [Hv | Hv].
  - replace v with (mn + Z.of_nat (Z.to_nat (v - mn))) at 1 by lia.
    apply occ_expand_in; [done|]. unfold h. rewrite tally_lookup.
    rewrite lookup_replicate_2 by lia. simpl. rewrite Z.add_0_l.
    do 2 f_equal. lia.
  - rewrite !occ_not_elem; [done | |].
    + intros Hin. apply Hl in Hin. lia.
    + intros Hin%elem_of_expand. unfold h in Hin.
      rewrite length_tally, length_replicate in Hin. lia.
Qed.

Lemma rebuild_spec (array count : list Z) (mn mx : Z) :
  INT_MIN ≤ mn ≤ mx → mx < INT_MAX → mx - mn < INT_MAX →
  Z.of_nat (length count) = mx - mn + 1 →
  Forall (λ c, 0 ≤ c) count →
  sum_counts count = Z.of_nat (length array) →
  rebuild array count mn mx = Ok (expand mn count, Z.of_nat (length array)).
Proof.
  intros Hmn Hmx Hspread Hlen Hpos Hsum. unfold rebuild, int_add.
  rewrite wrap_int_id by int_lia.
  edestruct (for_range_inv (λ i '(arr, k),
      length arr = length array ∧
      k = sum_counts (take (Z.to_nat (i - mn)) count) ∧
      take (Z.to_nat k) arr = expand mn (take (Z.to_nat (i - mn)) count)))
    as ([arr k] & -> & Harr & Hk & Htake).
  - lia.
  - rewrite Z.sub_diag. simpl. rewrite take_0. done.
  - intros i [arr k] Hi (Harr & -> & Htake).
    destruct (lookup_lt_is_Some_2 count (Z.to_nat (i - mn))) as [c Hc]; [lia|].
    unfold int_sub. rewrite wrap_int_id by int_lia.
    assert (load count (i - mn) = Ok c) as -> by (apply load_Ok; split; [lia | done]).
    simpl.
    assert (0 ≤ c) as Hc0 by (by eapply (Forall_lookup_1 _ _ _ _ Hpos)).
    replace (Z.to_nat (i + 1 - mn)) with (S (Z.to_nat (i - mn))) by lia.
    rewrite (take_S_r _ _ _ Hc).
    set (pre := take (Z.to_nat (i - mn)) count) in *.
    assert (0 ≤ sum_counts pre) as Hpre0.
    { apply sum_counts_nonneg. by apply Forall_take. }
    assert (sum_counts pre + c ≤ Z.of_nat (length array)) as Hroom.
    { rewrite <- Hsum.
      pose proof (sum_counts_take count (S (Z.to_nat (i - mn))) Hpos) as Hle.
      rewrite (take_S_r _ _ _ Hc), sum_counts_app in Hle. simpl in Hle. fold pre in Hle. lia. }
    edestruct (for_range_inv (λ j '(arr', k'),
        length arr' = length array ∧ k' = sum_counts pre + j ∧
        take (Z.to_nat k') arr' = expand mn pre ++ replicate (Z.to_nat j) i))
      as ([arr' k'] & -> & Harr' & -> & Htake').
    + lia.
    + simpl. rewrite Z.add_0_r, app_nil_r. done.
    + intros j [arr' k'] Hj (Harr' & -> & Htake').
      rewrite store_Ok by lia. simpl. eexists. split; [done|]. cbv beta iota.
      rewrite length_insert. split; [done|]. split; [lia|].
      replace (Z.to_nat (sum_counts pre + j + 1))
        with (S (Z.to_nat (sum_counts pre + j))) by lia.
      erewrite take_S_r; [|apply list_lookup_insert_eq; lia].
      rewrite take_insert_ge by lia. rewrite Htake', <- app_assoc. f_equal.
      replace (Z.to_nat (j + 1)) with (S (Z.to_nat j)) by lia.
      by rewrite replicate_S_end.
    + eexists. split; [done|]. cbv beta iota. split; [done|].
      rewrite sum_counts_app. simpl. split; [lia|].
      rewrite expand_snoc, Htake'. do 2 f_equal.
      unfold pre. rewrite length_take. lia.
  - rewrite (take_ge count) in Hk, Htake by lia. rewrite Hsum in Hk. subst k.
    rewrite Nat2Z.id, take_ge in Htake by lia. by rewrite Htake.
Qed.

Lemma bind_Ok {A B : Type} (a : A) (f : A → result B) : (Ok a ≫= f) = f a.
Proof. done. Qed.

Lemma mapM_fmap {A B C : Type} (f : B → result C) (g : A → B) (l : list A) :
  mapM f (g <$> l) = mapM (f ∘ g) l.
Proof.
  induction l as [|x l IH]; [done|]. rewrite fmap_cons.
  change (mapM f (g x :: (g <$> l)))
    with (f (g x) ≫= λ y, mapM f (g <$> l) ≫= λ k, mret (y :: k)).
  by rewrite IH.
Qed.

Lemma is_min_unique l a b : is_min l a → is_min l b → a = b.
Proof. intros [Ha Hla] [Hb Hlb]. apply Hla in Hb. apply Hlb in Ha. lia. Qed.

Lemma is_max_unique l a b : is_max l a → is_max l b → a = b.
Proof. intros [Ha Hla] [Hb Hlb]. apply Hla in Hb. apply Hlb in Ha. lia. Qed.

(** ** The sort on a well-formed input *)

Section Sorting.

Variable malloc : Z → bool.
Variable array : list Z.
Variables size num_proc mn mx : Z.

Hypothesis Hlen : size = Z.of_nat (length array).
Hypothesis Hsize : 1 ≤ size ≤ INT_MAX.
Hypothesis Hprocs : 1 ≤ num_proc ≤ INT_MAX.
Hypothesis Hmn : is_min array mn.
Hypothesis Hmx : is_max array mx.
Hypothesis Hint : INT_MIN ≤ mn ∧ mx < INT_MAX ∧ mx - mn < INT_MAX.

Let n : Z := mx - mn + 1.
Let L : Z := size ÷ num_proc.
Let zeros : list Z := replicate (Z.to_nat n) 0.

Local Lemma mn_le_mx : mn ≤ mx.
Proof.
  clear L. destruct Hmn as [Hin _], Hmx as [_ Hle]. by apply Hle. Qed.

Local Lemma count_size_eq : count_size_of mn mx = n.
Proof.
  clear L.
  pose proof mn_le_mx. pose proof Hint as Hb. unfold INT_MIN, INT_MAX in Hb.
  unfold count_size_of, int_add, int_sub, n.
  rewrite (wrap_int_id (mx - mn)) by (unfold INT_MIN, INT_MAX; lia).
  apply wrap_int_id. unfold INT_MIN, INT_MAX. lia.
Qed.

Local Lemma values_in_range x : x ∈ array → 0 ≤ x - mn < Z.of_nat (length zeros).
Proof.
  clear L.
  intros Hx. destruct Hmn as [_ Hlo], Hmx as [_ Hhi].
  apply Hlo in Hx as ?. apply Hhi in Hx as ?.
  unfold zeros, n. rewrite length_replicate. lia.
Qed.

Local Lemma L_bounds : 0 ≤ L ∧ L * num_proc ≤ size < L * num_proc + num_proc.
Proof. apply local_size_bounds; lia. Qed.

Local Lemma length_zeros : Z.of_nat (length zeros) = n.
Proof.
  clear L. pose proof mn_le_mx. unfold zeros, n. rewrite length_replicate. lia. Qed.

Lemma counting_sort_local_spec (rank : Z) :
  0 ≤ rank < num_proc →
  counting_sort_local malloc array size num_proc rank mn mx =
    if malloc (4 * n)
    then Ok (tally mn zeros (slice array (rank * L) ((rank + 1) * L)))
    else Exit EXIT_FAILURE.
Proof.
  intros Hrank. pose proof L_bounds as (HL0 & HL1 & HL2). pose proof mn_le_mx.
  unfold counting_sort_local. rewrite c_div_Ok by lia. simpl.
  rewrite count_size_eq, safe_alloc_count by (unfold n; lia).
  destruct (malloc (4 * n)); [|done]. simpl.
  rewrite zero_fill_replicate by (unfold n; lia). simpl.
  fold L zeros. replace (rank * L + L) with ((rank + 1) * L) by lia.
  apply count_elements_spec.
  - nia.
  - fold L in HL1. nia.
  - rewrite length_zeros. unfold n. lia.
  - apply values_in_range.
  - intros k v [-> _]%lookup_replicate. fold L in HL1. nia.
Qed.

Lemma global_count_spec (local_count : list Z) (sent : list (list Z)) :
  local_count = tally mn zeros (slice array 0 L) →
  (∀ rank, 0 ≤ rank < num_proc →
     sent !! Z.to_nat rank = Some (tally mn zeros (slice array (rank * L) ((rank + 1) * L)))) →
  global_count malloc array size num_proc mn mx local_count sent =
    if malloc (4 * n) then Ok (tally mn zeros array) else Exit EXIT_FAILURE.
Proof.
  intros -> Hsent. pose proof L_bounds as (HL0 & HL1 & HL2). pose proof mn_le_mx.
  fold L in HL1, HL2.
  unfold global_count. rewrite c_div_Ok by lia. simpl.
  rewrite count_size_eq, safe_alloc_count by (unfold n; lia).
  destruct (malloc (4 * n)); [|done]. simpl.
  rewrite zero_fill_replicate by (unfold n; lia). simpl.
  fold L zeros.
  rewrite (count_elements_spec array mn (L * num_proc) size).
  2:{ nia. } 2:{ lia. }
  2:{ rewrite length_tally, length_zeros. unfold n. lia. }
  2:{ intros x Hx. rewrite length_tally. by apply values_in_range. }
  2:{ intros k v Hv%tally_zeros_bounds. rewrite length_slice in Hv by nia. nia. }
  simpl. rewrite tally_app.
  set (left := slice array (L * num_proc) size).
  edestruct (for_range_inv (λ i '(lc, cnt),
      Z.of_nat (length lc) = n ∧
      (i = 0 → lc = tally mn zeros (slice array 0 L ++ left)) ∧
      cnt = tally mn zeros (if i =? 0 then [] else slice array 0 (i * L) ++ left)))
    as ([lc cnt] & -> & _ & _ & ->).
  - lia.
  - simpl. rewrite length_tally, length_zeros, tally_nil. done.
  - intros i [lc cnt] Hi (Hlc & Hlc0 & ->).
    assert ((i + 1) * L ≤ L * num_proc) as Hchunk by nia.
    assert (0 ≤ i * L ∧ 0 ≤ L * num_proc) as [HiL HWL] by nia.
    rewrite Z.gtb_ltb. destruct (Z.ltb_spec 0 i) as [Hpos | Hzero].
    + unfold MPI_Recv. destruct (Z.ltb_spec i 0); [lia|].
      rewrite Hsent by lia. simpl. rewrite length_tally.
      destruct (Z.leb_spec (Z.of_nat (length zeros)) n); [|rewrite length_zeros in *; lia].
      simpl. rewrite drop_ge, app_nil_r by (pose proof length_zeros; lia).
      rewrite add_counts_spec.
      2:{ by rewrite length_tally, length_zeros. }
      2:{ by rewrite length_tally, length_zeros. }
      2:{ intros k a b Ha%tally_zeros_bounds Hb%tally_zeros_bounds.
          destruct (Z.eqb_spec i 0); [lia|].
          rewrite length_app in Ha. rewrite Nat2Z.inj_add in Ha.
          unfold left in Ha. rewrite length_slice in Hb by lia.
          rewrite (length_slice array 0) in Ha by lia.
          rewrite (length_slice array (L * num_proc)) in Ha by lia.
          unfold INT_MIN. lia. }
      simpl. eexists. split; [done|].
      split; [by rewrite length_tally, length_zeros|]. split; [lia|].
      destruct (Z.eqb_spec i 0), (Z.eqb_spec (i + 1) 0); try lia.
      unfold zeros. rewrite zip_tally. apply tally_ext. intros v.
      rewrite <- (slice_app array 0 (i * L) ((i + 1) * L)) by nia.
      rewrite !occ_app. lia.
    + assert (i = 0) as -> by lia. simpl. rewrite Hlc0 by done.
      rewrite add_counts_spec.
      2:{ by rewrite length_tally, length_zeros. }
      2:{ by rewrite length_tally, length_zeros. }
      2:{ intros k a b Ha%tally_zeros_bounds Hb%tally_zeros_bounds.
          rewrite length_app in Hb. rewrite Nat2Z.inj_add in Hb.
          unfold left in Hb.
          rewrite (length_slice array 0) in Hb by lia.
          rewrite (length_slice array (L * num_proc)) in Hb by lia.
          simpl in Ha. unfold INT_MIN. lia. }
      simpl. eexists. split; [done|].
      split; [by rewrite length_tally, length_zeros|]. split; [lia|].
      unfold zeros. rewrite zip_tally. simpl. by rewrite Z.mul_1_l.
  - simpl. destruct (Z.eqb_spec num_proc 0); [lia|]. do 2 f_equal.
    unfold left. rewrite Z.mul_comm, slice_app by nia.
    rewrite Hlen. apply slice_all.
Qed.

Local Lemma hist_nonneg : Forall (λ c, 0 ≤ c) (tally mn zeros array).
Proof.
  clear L.
  apply Forall_lookup. intros k c Hc. by apply tally_zeros_bounds in Hc as [? _].
Qed.

Local Lemma hist_perm : expand mn (tally mn zeros array) ≡ₚ array.
Proof.
  clear L.
  apply expand_tally_perm. intros x Hx%values_in_range.
  unfold zeros in Hx. by rewrite length_replicate in Hx.
Qed.

Local Lemma hist_sum : sum_counts (tally mn zeros array) = Z.of_nat (length array).
Proof.
  clear L.
  rewrite <- (length_expand _ mn) by apply hist_nonneg.
  by rewrite (Permutation_length hist_perm).
Qed.

Lemma counting_sort_count_spec :
  counting_sort_count malloc array size num_proc =
    if malloc (4 * n) then Ok (mn, mx, tally mn zeros array) else Exit EXIT_FAILURE.
Proof.
  unfold counting_sort_count.
  destruct (find_min_max_spec array size num_proc) as (mn' & mx' & -> & Hmn' & Hmx');
    [done | lia | done |].
  rewrite (is_min_unique _ _ _ Hmn' Hmn), (is_max_unique _ _ _ Hmx' Hmx).
  rewrite bind_Ok, zip_with_replicate_r_eq by apply length_ranks.
  rewrite mapM_fmap.
  destruct (malloc (4 * n)) eqn:Hmalloc.
  - destruct (mapM_Ok
      (λ rank lc, lc = tally mn zeros (slice array (rank * L) ((rank + 1) * L)))
      ((λ '(rank, (min, max)),
          counting_sort_local malloc array size num_proc rank min max)
         ∘ flip pair (mn, mx)) (ranks num_proc)) as (locals & -> & HF).
    { intros rank Hrank%elem_of_seqZ. simpl.
      rewrite counting_sort_local_spec, Hmalloc by lia. eauto. }
    simpl. rewrite lookup_replicate_2 by lia. simpl.
    assert (∀ rank, 0 ≤ rank < num_proc →
              locals !! Z.to_nat rank
              = Some (tally mn zeros (slice array (rank * L) ((rank + 1) * L))))
      as Hlocals.
    { intros rank Hrank.
      assert (ranks num_proc !! Z.to_nat rank = Some rank) as Hr.
      { unfold ranks. rewrite lookup_seqZ_lt by lia. f_equal. lia. }
      destruct (Forall2_lookup_l _ _ _ _ _ HF Hr) as (lc & -> & ->). done. }
    pose proof (Hlocals 0 ltac:(lia)) as Hl0.
    change (Z.to_nat 0) with 0%nat in Hl0. rewrite Hl0. simpl.
    rewrite (global_count_spec _ locals), Hmalloc; [done | | done].
    f_equal. f_equal; lia.
  - rewrite ranks_cons by lia.
    erewrite mapM_Exit; [done|]. simpl.
    by rewrite counting_sort_local_spec, Hmalloc by lia.
Qed.

Lemma counting_sort_spec :
  counting_sort malloc array size num_proc =
    if malloc (4 * n)
    then Ok (replicate (Z.to_nat num_proc) (expand mn (tally mn zeros array)))
    else Exit EXIT_FAILURE.
Proof.
  pose proof mn_le_mx. unfold counting_sort.
  rewrite counting_sort_count_spec. destruct (malloc (4 * n)); [|done]. simpl.
  rewrite rebuild_spec; [| lia | lia | lia | | apply hist_nonneg | apply hist_sum].
  2:{ by rewrite length_tally, length_zeros. }
  simpl. unfold MPI_Bcast.
  set (sorted := expand mn (tally mn zeros array)).
  rewrite ranks_cons at 1 by lia. simpl. f_equal.
  rewrite <- list_fmap_compose, <- (length_ranks num_proc). apply const_fmap.
  intros i rank _. simpl.
  assert (length sorted = Z.to_nat size) as Hsorted.
  { unfold sorted. rewrite (Permutation_length hist_perm). lia. }
  rewrite take_ge, drop_ge, app_nil_r; [done | | lia].
  destruct (rank =? 0); lia.
Qed.

Lemma serial_counting_sort_spec :
  Serial.counting_sort malloc array size =
    if malloc (4 * n) then Ok (expand mn (tally mn zeros array)) else Exit EXIT_FAILURE.
Proof.
  clear L.
  pose proof mn_le_mx. unfold Serial.counting_sort.
  destruct (lookup_lt_is_Some_2 array 0) as [a0 Ha0]; [lia|].
  destruct (array_min_max_spec array size a0 Ha0) as (mn' & mx' & -> & Hmn' & Hmx');
    [lia|].
  rewrite take_ge in Hmn', Hmx' by lia.
  assert (a0 ∈ array) as Hin by (apply list_elem_of_lookup; eauto).
  apply (is_min_cons_elem _ _ _ Hin) in Hmn'. apply (is_max_cons_elem _ _ _ Hin) in Hmx'.
  rewrite (is_min_unique _ _ _ Hmn' Hmn), (is_max_unique _ _ _ Hmx' Hmx). simpl.
  rewrite count_size_eq, (Z.mul_comm sizeof_int), safe_alloc_count by (unfold n; lia).
  destruct (malloc (4 * n)); [|done]. simpl.
  rewrite zero_fill_replicate by (unfold n; lia). simpl. fold zeros.
  pose proof (count_elements_spec array mn 0 size zeros) as Hcount.
  unfold count_elements, key in Hcount. rewrite Hcount; clear Hcount.
  2:{ lia. } 2:{ lia. }
  2:{ rewrite length_zeros. unfold n. lia. }
  2:{ apply values_in_range. }
  2:{ intros k v [-> _]%lookup_replicate. lia. }
  simpl. assert (slice array 0 size = array) as -> by (rewrite Hlen; apply slice_all).
  pose proof (rebuild_spec array (tally mn zeros array) mn mx) as Hrebuild.
  unfold rebuild in Hrebuild.
  erewrite for_range_ext; [rewrite Hrebuild|].
  - done.
  - lia.
  - lia.
  - lia.
  - by rewrite length_tally, length_zeros.
  - apply hist_nonneg.
  - apply hist_sum.
  - intros i [arr k] Hi. simpl.
    unfold int_add in Hi. rewrite wrap_int_id in Hi by int_lia.
    unfold int_sub. rewrite !wrap_int_id by int_lia.
    done.
Qed.

End Sorting.

Lemma sort_input_min_max lo hi array size num_proc :
  sort_input lo hi array size num_proc →
  ∃ mn mx, is_min array mn ∧ is_max array mx ∧
           INT_MIN ≤ mn ∧ mx < INT_MAX ∧ mx - mn < INT_MAX.
Proof.
  intros [Hlen Hsize _ Hrange Hvalues].
  destruct (lookup_lt_is_Some_2 array 0) as [a0 Ha0]; [lia|].
  destruct (array_min_max_spec array size a0 Ha0) as (mn & mx & _ & Hmn & Hmx); [lia|].
  rewrite take_ge in Hmn, Hmx by lia.
  assert (a0 ∈ array) as Hin by (apply list_elem_of_lookup; eauto).
  apply (is_min_cons_elem _ _ _ Hin) in Hmn. apply (is_max_cons_elem _ _ _ Hin) in Hmx.
  exists mn, mx. split; [done|]. split; [done|].
  rewrite Forall_forall in Hvalues.
  destruct Hmn as [Hmn%Hvalues _], Hmx as [Hmx%Hvalues _]. lia.
Qed.

Lemma Sorted_le_lookup (l : list Z) (i : nat) a b :
  Sorted Z.le l → l !! i = Some a → l !! S i = Some b → a ≤ b.
Proof.
  intros Hl. revert i. induction Hl as [|x l Hl IH Hhd]; intros i Ha Hb; [done|].
  destruct i as [|i]; simpl in *.
  - injection Ha as ->. destruct Hhd as [|y l' Hxy]; [done|]. simpl in Hb. congruence.
  - by eapply IH.
Qed.

(** The outcome of the sort on a well-formed input, for the group and
    for the single-process program. *)
Lemma sort_outcome lo hi malloc array size num_proc :
  sort_input lo hi array size num_proc →
  ∃ mn mx count out,
    sort_run malloc array size num_proc mn mx count out ∧ lo ≤ mn ∧ mx ≤ hi.
Proof.
  intros Hin. destruct (sort_input_min_max _ _ _ _ _ Hin) as (mn & mx & Hmn & Hmx & Hint).
  destruct Hin as [Hlen Hsize Hprocs _ Hvalues].
  assert (mn ≤ mx) as Hle by (destruct Hmn as [Hm _], Hmx as [_ Hx]; by apply Hx).
  set (count := tally mn (replicate (Z.to_nat (mx - mn + 1)) 0) array).
  assert (expand mn count ≡ₚ array) as Hperm.
  { apply expand_tally_perm. intros x Hx.
    destruct Hmn as [_ Hlo], Hmx as [_ Hhi]. apply Hlo in Hx as ?. apply Hhi in Hx as ?.
    lia. }
  assert (Forall (λ c, 0 ≤ c) count) as Hpos.
  { apply Forall_lookup. intros k c Hc. by apply tally_zeros_bounds in Hc as [? _]. }
  assert (Z.of_nat (length count) = mx - mn + 1) as Hcount.
  { unfold count. rewrite length_tally, length_replicate. lia. }
  assert (sum_counts count = size) as Hsum.
  { rewrite <- (length_expand _ mn Hpos), (Permutation_length Hperm). lia. }
  exists mn, mx, count, (expand mn count). split; [split|].
  - done.
  - done.
  - done.
  - done.
  - apply StronglySorted_Sorted, StronglySorted_expand.
  - done.
  - rewrite Hlen. apply rebuild_spec; try done; lia.
  - by apply counting_sort_count_spec.
  - by apply counting_sort_spec.
  - by apply serial_counting_sort_spec.
  - rewrite Forall_forall in Hvalues.
    destruct Hmn as [Hmn%Hvalues _], Hmx as [Hmx%Hvalues _]. lia.
Qed.

Lemma sort_run_granted malloc array size num_proc mn mx count out lo hi :
  sort_run malloc array size num_proc mn mx count out →
  lo ≤ mn → mx ≤ hi →
  (∀ bytes, 0 < bytes ≤ 4 * (hi - lo + 1) → malloc bytes = true) →
  malloc (4 * (mx - mn + 1)) = true.
Proof.
  intros [[Hmn _] [_ Hmx] _ _ _ _ _ _ _ _] Hlo Hhi Hmalloc.
  apply Hmx in Hmn. apply Hmalloc. lia.
Qed.

(** ** The partition, phase by phase *)

(** A counted loop visits the indices [lo, lo + 1, ..., hi - 1] in order. *)
Lemma for_range_visits (lo hi : Z) :
  for_range lo hi (λ i visited, Ok (visited ++ [i])) [] = Ok (seqZ lo (hi - lo)).
Proof.
  destruct (Z_le_gt_dec lo hi) as [Hle | Hgt].
  - edestruct (for_range_inv (λ i visited, visited = seqZ lo (i - lo))
                 (λ i visited, Ok (visited ++ [i])) lo hi [])
      as (visited & -> & ->); [done | by rewrite Z.sub_diag | | done].
    intros j t Hj ->. eexists. split; [done|].
    replace (j + 1 - lo) with (j - lo + 1) by lia.
    rewrite seqZ_app by lia. f_equal.
    replace (lo + (j - lo)) with j by lia.
    rewrite seqZ_cons by lia. by rewrite seqZ_nil.
  - rewrite for_range_empty by lia. by rewrite seqZ_nil by lia.
Qed.

(** ** [array_init_random] and [main] *)

Lemma safe_alloc_cases malloc (bytes : Z) :
  (alloc_fails malloc bytes ∧ safe_alloc malloc bytes = Exit EXIT_FAILURE) ∨
  (¬ alloc_fails malloc bytes ∧
   safe_alloc malloc bytes = Ok (replicate (Z.to_nat (bytes / sizeof_int)) 0)).
Proof.
  unfold safe_alloc, alloc_fails. destruct (Z.ltb_spec bytes 1); [left; by auto|].
  destruct (malloc bytes); [right | left; by auto].
  split; [|done]. intros [? | ?]; [lia | done].
Qed.

Lemma wrap_llong_id z : LLONG_MIN ≤ z ≤ LLONG_MAX → wrap_llong z = z.
Proof.
  unfold LLONG_MIN, LLONG_MAX, wrap_llong. intros H.
  rewrite Z.mod_small by lia. lia.
Qed.

(** A loop that stores one generated value per index leaves values that
    satisfy [P] in every slot it has passed. *)
Lemma fill_loop_spec (P : Z → Prop) (gen : Z → result Z) (h : Z → Z) (lo hi : Z)
    (a : list Z) :
  0 ≤ lo ≤ hi → hi ≤ Z.of_nat (length a) →
  (∀ i, lo ≤ i < hi → ∃ r, gen i = Ok r ∧ P (h r)) →
  (∀ (k : nat) v, Z.of_nat k < lo → a !! k = Some v → P v) →
  ∃ a', for_range lo hi (λ i a, r ← gen i; store a i (h r)) a = Ok a' ∧
        length a' = length a ∧
        ∀ (k : nat) v, Z.of_nat k < hi → a' !! k = Some v → P v.
Proof.
  intros Hlo Hhi Hgen Hpre.
  apply (for_range_inv (λ i a',
    length a' = length a ∧ ∀ (k : nat) v, Z.of_nat k < i → a' !! k = Some v → P v)).
  - lia.
  - done.
  - intros j t Hj [Hlen Hok]. destruct (Hgen j Hj) as (r & -> & HP). simpl.
    rewrite store_Ok by lia. eexists. split; [done|].
    rewrite length_insert. split; [done|].
    intros k v Hk. destruct (decide (Z.to_nat j = k)) as [<- | Hne].
    + rewrite list_lookup_insert_eq by lia. by intros [= <-].
    + rewrite list_lookup_insert_ne by done. apply Hok. lia.
Qed.

Lemma Forall2_const_r {A B : Type} (Q : B → Prop) (l : list A) (k : list B) :
  Forall2 (λ _ y, Q y) l k → Forall Q k.
Proof. induction 1; by constructor. Qed.

Lemma length_concat_const (n : nat) (ls : list (list Z)) :
  Forall (λ l, length l = n) ls → length (concat ls) = (length ls * n)%nat.
Proof.
  induction 1 as [|l ls Hl _ IH]; [done|]. simpl. rewrite length_app, IH, Hl. lia.
Qed.

Section Main.

Variable malloc : Z → bool.
Variables RANGE_MIN RANGE_MAX : Z.
Variable rand_r : Z → Z → Z.
Variable rand : Z → Z.

Hypothesis Hrange : INT_MIN ≤ RANGE_MIN ∧ RANGE_MAX < INT_MAX ∧
                    RANGE_MAX - RANGE_MIN < INT_MAX.
Hypothesis Hrand_r : ∀ rank i, 0 ≤ rand_r rank i.
Hypothesis Hrand : ∀ i, 0 ≤ rand i.

Local Lemma random_value (r : Z) :
  RANGE_MIN < RANGE_MAX → 0 ≤ r →
  ∃ v, c_rem r (int_sub (int_add RANGE_MAX 1) RANGE_MIN) = Ok v ∧
       RANGE_MIN ≤ int_add v RANGE_MIN ≤ RANGE_MAX.
Proof.
  intros Hlt Hr. pose proof Hrange as Hb. unfold INT_MIN, INT_MAX in Hb.
  assert (int_sub (int_add RANGE_MAX 1) RANGE_MIN = RANGE_MAX + 1 - RANGE_MIN) as ->.
  { unfold int_sub, int_add.
    rewrite (wrap_int_id (RANGE_MAX + 1)) by (unfold INT_MIN, INT_MAX; lia).
    apply wrap_int_id. unfold INT_MIN, INT_MAX. lia. }
  unfold c_rem. destruct (Z.eqb_spec (RANGE_MAX + 1 - RANGE_MIN) 0); [lia|].
  eexists. split; [done|].
  pose proof (Z.rem_bound_pos r (RANGE_MAX + 1 - RANGE_MIN) Hr ltac:(lia)) as Hrem.
  unfold int_add. rewrite wrap_int_id by (unfold INT_MIN, INT_MAX; lia). lia.
Qed.

Lemma array_init_random_spec (array : list Z) (size num_proc : Z) :
  Z.of_nat (length array) = size → 1 ≤ size ≤ INT_MAX → 1 ≤ num_proc ≤ INT_MAX →
  RANGE_MIN < RANGE_MAX →
  (alloc_fails malloc (4 * (size ÷ num_proc)) ∧
   array_init_random malloc rand_r rand array size RANGE_MIN RANGE_MAX num_proc
     = Exit EXIT_FAILURE) ∨
  (¬ alloc_fails malloc (4 * (size ÷ num_proc)) ∧
   ∃ data,
     array_init_random malloc rand_r rand array size RANGE_MIN RANGE_MAX num_proc
       = Ok data ∧
     Z.of_nat (length data) = size ∧
     Forall (λ x, RANGE_MIN ≤ x ≤ RANGE_MAX) data).
Proof.
  intros Hlen Hsize Hprocs Hlt.
  destruct (local_size_bounds size num_proc) as [HL Hb]; [lia..|].
  set (L := size ÷ num_proc) in *.
  unfold array_init_random. rewrite c_div_Ok by lia. fold L.
  rewrite bind_Ok. cbv zeta.
  assert (L ≤ INT_MAX) as HLmax by nia.
  assert (wrap_llong (L * sizeof_int) = 4 * L) as ->.
  { unfold sizeof_int. rewrite wrap_llong_id; [lia|].
    unfold LLONG_MIN, LLONG_MAX, INT_MAX in *. lia. }
  destruct (safe_alloc_cases malloc (4 * L)) as [[Hfail Halloc] | [Hok Halloc]].
  - left. split; [done|]. rewrite ranks_cons by lia.
    erewrite mapM_Exit; [done|]. by rewrite Halloc.
  - right. split; [done|].
    replace (4 * L / sizeof_int) with L in Halloc
      by (unfold sizeof_int; rewrite Z.mul_comm, Z.div_mul; lia).
    edestruct (mapM_Ok
      (λ (_ : Z) (local_array : list Z),
         length local_array = Z.to_nat L ∧
         Forall (λ x, RANGE_MIN ≤ x ≤ RANGE_MAX) local_array))
      as (local_arrays & -> & HF).
    { intros rank _. rewrite Halloc, bind_Ok.
      edestruct (fill_loop_spec (λ x, RANGE_MIN ≤ x ≤ RANGE_MAX)
                   (λ i, c_rem (rand_r rank i) (int_sub (int_add RANGE_MAX 1) RANGE_MIN))
                   (λ r, int_add r RANGE_MIN) 0 L (replicate (Z.to_nat L) 0))
        as (a & -> & Ha & Hval).
      - lia.
      - rewrite length_replicate. lia.
      - intros i _. by apply random_value.
      - intros k v Hk. lia.
      - eexists. split; [done|]. rewrite length_replicate in Ha. split; [done|].
        apply Forall_lookup. intros k v Hv. apply (Hval k); [|done].
        apply lookup_lt_Some in Hv. lia. }
    rewrite bind_Ok.
    set (blocks := concat (take (Z.to_nat L) <$> local_arrays)).
    assert (length blocks = Z.to_nat (L * num_proc)) as Hblocks.
    { unfold blocks. rewrite (length_concat_const (Z.to_nat L)).
      - rewrite length_fmap, <- (Forall2_length _ _ _ HF), length_ranks. lia.
      - apply Forall_fmap. apply Forall2_const_r in HF.
        eapply Forall_impl; [exact HF|]. intros l [Hl _]. simpl.
        rewrite length_take. lia. }
    assert (Forall (λ x, RANGE_MIN ≤ x ≤ RANGE_MAX) blocks) as Hvalues.
    { unfold blocks. apply Forall_concat, Forall_fmap. apply Forall2_const_r in HF.
      eapply Forall_impl; [exact HF|]. intros l [_ Hl]. simpl. by apply Forall_take. }
    unfold MPI_Allgather. fold blocks.
    destruct (Nat.leb_spec (length blocks) (length array)); [|lia].
    rewrite bind_Ok.
    assert (length (blocks ++ drop (length blocks) array) = length array) as Hfull.
    { rewrite length_app, length_drop. lia. }
    destruct (Z.ltb_spec (L * num_proc) size) as [Hleft | Hnone].
    + edestruct (fill_loop_spec (λ x, RANGE_MIN ≤ x ≤ RANGE_MAX)
                   (λ i, c_rem (rand (i - L * num_proc))
                           (int_sub (int_add RANGE_MAX 1) RANGE_MIN))
                   (λ r, int_add r RANGE_MIN) (L * num_proc) size
                   (blocks ++ drop (length blocks) array))
        as (a & -> & Ha & Hval).
      * nia.
      * lia.
      * intros i _. by apply random_value.
      * intros k v Hk. rewrite lookup_app_l by lia.
        intros Hv. by apply (Forall_lookup_1 _ _ _ _ Hvalues Hv).
      * exists a. split; [done|]. split; [lia|].
        apply Forall_lookup. intros k v Hv. apply (Hval k); [|done].
        apply lookup_lt_Some in Hv. lia.
    + eexists. split; [done|]. split; [lia|].
      rewrite drop_ge, app_nil_r by lia. done.
Qed.

Local Abbreviation main_run' := (main_run malloc RANGE_MIN RANGE_MAX rand_r rand).
Local Abbreviation main_fails' := (main_fails malloc RANGE_MIN RANGE_MAX rand_r rand).

Lemma main_run_spec (argv : list string) (num_proc rank : Z) :
  1 ≤ num_proc ≤ INT_MAX →
  (∀ arg, argv !! 1%nat = Some arg → INT_MIN ≤ atoll arg ≤ INT_MAX) →
  (main_fails' argv num_proc ∧ main_run' argv num_proc rank = Exit EXIT_FAILURE) ∨
  (¬ main_fails' argv num_proc ∧
   ∃ arg, argv !! 1%nat = Some arg ∧ main_run' argv num_proc rank = Ok (atoll arg)).
Proof.
  intros Hprocs Harg. unfold main_run, main_fails.
  destruct (Z.eqb_spec (Z.of_nat (length argv)) 2) as [Hargc | Hargc]; simpl;
    [|left; split; [left; lia | done]].
  destruct (Z.leb_spec RANGE_MAX RANGE_MIN) as [Hbad | Hgood];
    [left; split; [right; by left | done]|].
  destruct (lookup_lt_is_Some_2 argv 1) as [arg Hlookup]; [lia|].
  rewrite Hlookup. simpl. destruct (Harg arg Hlookup) as [Hlo Hhi].
  set (size := atoll arg) in *.
  assert (wrap_llong (size * sizeof_int) = 4 * size) as ->.
  { unfold sizeof_int. rewrite wrap_llong_id; [lia|].
    unfold LLONG_MIN, LLONG_MAX, INT_MIN, INT_MAX in *. lia. }
  destruct (safe_alloc_cases malloc (4 * size)) as [[Hfail ->] | [Hok ->]].
  { left. split; [|done]. do 2 right. exists arg. split; [done|]. by left. }
  assert (1 ≤ size) as Hsize by (unfold alloc_fails in Hok; lia).
  replace (4 * size / sizeof_int) with size
    by (unfold sizeof_int; rewrite Z.mul_comm, Z.div_mul; lia).
  rewrite bind_Ok.
  destruct (array_init_random_spec (replicate (Z.to_nat size) 0) size num_proc)
    as [[Hfail ->] | (Hok' & data & Hdata & Hlen & Hvalues)];
    [rewrite length_replicate; lia | lia | done | lia | |].
  { left. split; [|done]. do 2 right. exists arg. split; [done|]. right. by left. }
  rewrite Hdata, bind_Ok.
  assert (sort_input RANGE_MIN RANGE_MAX data size num_proc) as Hin.
  { split; [done | lia | done | done | done]. }
  destruct (sort_outcome _ _ malloc _ _ _ Hin)
    as (mn & mx & count & out & [Hmn Hmx _ _ _ _ _ _ -> _] & _ & _).
  assert (mn ≤ mx) as Hle by (destruct Hmn as [Hm _], Hmx as [_ Hx]; by apply Hx).
  destruct (malloc (4 * (mx - mn + 1))) eqn:Hmalloc.
  - right. split; [|by exists arg].
    intros [Hargc' | [Hbad | (arg' & Harg' & Hfail)]]; [lia | lia |].
    injection Harg' as <-. fold size in Hfail.
    destruct Hfail as [Hfail | [Hfail | (data' & mn' & mx' & Hdata' & Hmn' & Hmx' & Hfail)]];
      [done | done |].
    rewrite Hdata in Hdata'. injection Hdata' as <-.
    rewrite (is_min_unique _ _ _ Hmn' Hmn), (is_max_unique _ _ _ Hmx' Hmx) in Hfail.
    destruct Hfail as [Hfail | Hfail]; [lia | congruence].
  - left. split; [|done]. do 2 right. exists arg. split; [done|]. do 2 right.
    exists data, mn, mx. repeat split; try done; try apply Hmn; try apply Hmx.
    by right.
Qed.

Lemma main_run_Ok (argv : list string) (num_proc rank size : Z) :
  main_run' argv num_proc rank = Ok size →
  ∃ arg, argv !! 1%nat = Some arg ∧ size = atoll arg.
Proof.
  unfold main_run.
  destruct (negb _); [done|]. destruct (_ <=? _); [done|].
  destruct (argv !! 1%nat) as [arg|]; [|done]. simpl.
  destruct (safe_alloc _ _); [|done..]. simpl.
  destruct (array_init_random _ _ _ _ _ _ _ _); [|done..]. simpl.
  destruct (counting_sort _ _ _ _); [|done..]. simpl.
  intros [= <-]. by exists arg.
Qed.

End Main.

(** * Main results *)

(** The input contract on a literal array, with the interval of [util.h]:
    every field is settled by evaluation. *)
Ltac sort_input_by_computation :=
  split;
  [ reflexivity
  | vm_compute; split; discriminate
  | vm_compute; split; discriminate
  | vm_compute; repeat split; discriminate
  | unfold util_RANGE_MIN, util_RANGE_MAX; repeat constructor; lia ].


(** C1. On a well-formed input, with an allocator that grants the
    histogram, rank 0 rebuilds from its histogram a sequence of exactly
    [size] elements, every rank ends with that sequence, and it is
    non-decreasing: [out[i] <= out[i + 1]] for every valid [i]. *)
Theorem counting_sort_sorted lo hi malloc array size num_proc :
  sort_input lo hi array size num_proc →
  (∀ bytes, 0 < bytes ≤ 4 * (hi - lo + 1) → malloc bytes = true) →
  ∃ mn mx count out,
    counting_sort_count malloc array size num_proc = Ok (mn, mx, count) ∧
    rebuild array count mn mx = Ok (out, size) ∧
    counting_sort malloc array size num_proc
      = Ok (replicate (Z.to_nat num_proc) out) ∧
    Z.of_nat (length out) = size ∧
    Sorted Z.le out ∧
    ∀ (i : nat) a b, out !! i = Some a → out !! S i = Some b → a ≤ b.
Proof.
  intros Hin Hmalloc.
  destruct (sort_outcome lo hi malloc array size num_proc Hin)
    as (mn & mx & count & out & Hrun & Hlo & Hhi).
  pose proof (sort_run_granted _ _ _ _ _ _ _ _ _ _ Hrun Hlo Hhi Hmalloc) as Hgranted.
  destruct Hrun as [_ _ _ _ Hsorted Hperm Hrebuild Hcount Hpar _].
  rewrite Hgranted in Hcount, Hpar. exists mn, mx, count, out.
  split; [done|]. split; [done|]. split; [done|].
  split; [rewrite (Permutation_length Hperm); by destruct Hin|].
  split; [done|]. intros i a b. by apply Sorted_le_lookup.
Qed.

Lemma counting_sort_sorted_witness :
  ∃ mn mx count out,
    counting_sort_count (λ _, true) [5; 3; 9; 1; 4; 1; 9; 2; 6; 3] 10 3
      = Ok (mn, mx, count) ∧
    rebuild [5; 3; 9; 1; 4; 1; 9; 2; 6; 3] count mn mx = Ok (out, 10) ∧
    counting_sort (λ _, true) [5; 3; 9; 1; 4; 1; 9; 2; 6; 3] 10 3
      = Ok (replicate (Z.to_nat 3) out) ∧
    Z.of_nat (length out) = 10 ∧
    Sorted Z.le out ∧
    ∀ (i : nat) a b, out !! i = Some a → out !! S i = Some b → a ≤ b.
Proof.
  apply (counting_sort_sorted util_RANGE_MIN util_RANGE_MAX); [|done].
  sort_input_by_computation.
Defined.

(** C2. On a well-formed input, whether or not [size] is a multiple of
    [num_proc], the global histogram that rank 0 builds sums to [size],
    and the sequence every rank ends with is a rearrangement of the
    input: no element is lost or duplicated. *)
Theorem counting_sort_conserves lo hi malloc array size num_proc :
  sort_input lo hi array size num_proc →
  (∀ bytes, 0 < bytes ≤ 4 * (hi - lo + 1) → malloc bytes = true) →
  ∃ mn mx count out,
    counting_sort_count malloc array size num_proc = Ok (mn, mx, count) ∧
    sum_counts count = size ∧
    counting_sort malloc array size num_proc
      = Ok (replicate (Z.to_nat num_proc) out) ∧
    out ≡ₚ array.
Proof.
  intros Hin Hmalloc.
  destruct (sort_outcome lo hi malloc array size num_proc Hin)
    as (mn & mx & count & out & Hrun & Hlo & Hhi).
  pose proof (sort_run_granted _ _ _ _ _ _ _ _ _ _ Hrun Hlo Hhi Hmalloc) as Hgranted.
  destruct Hrun as [_ _ _ Hsum _ Hperm _ Hcount Hpar _].
  rewrite Hgranted in Hcount, Hpar. by exists mn, mx, count, out.
Qed.

Lemma counting_sort_conserves_witness :
  ∃ mn mx count out,
    counting_sort_count (λ _, true) [5; 3; 9; 1; 4; 1; 9; 2; 6; 3] 10 3
      = Ok (mn, mx, count) ∧
    sum_counts count = 10 ∧
    counting_sort (λ _, true) [5; 3; 9; 1; 4; 1; 9; 2; 6; 3] 10 3
      = Ok (replicate (Z.to_nat 3) out) ∧
    out ≡ₚ [5; 3; 9; 1; 4; 1; 9; 2; 6; 3].
Proof.
  apply (counting_sort_conserves util_RANGE_MIN util_RANGE_MAX); [|done].
  sort_input_by_computation.
Defined.

(** C3. For a non-empty array and any number of processes, the range
    reduction hands every rank the same pair, made of the least and the
    greatest element of the whole array. *)
Theorem find_min_max_correct (array : list Z) (size num_proc : Z) :
  size = Z.of_nat (length array) → 1 ≤ size → 1 ≤ num_proc ≤ INT_MAX →
  ∃ mn mx pairs,
    find_min_max array size num_proc = Ok pairs ∧
    length pairs = Z.to_nat num_proc ∧
    (∀ rank, 0 ≤ rank < num_proc → pairs !! Z.to_nat rank = Some (mn, mx)) ∧
    is_min array mn ∧ is_max array mx.
Proof.
  intros Hlen Hsize Hprocs.
  destruct (find_min_max_spec array size num_proc Hlen Hsize Hprocs)
    as (mn & mx & Hrun & Hmn & Hmx).
  exists mn, mx, (replicate (Z.to_nat num_proc) (mn, mx)).
  split; [done|]. split; [apply length_replicate|]. split; [|done].
  intros rank Hrank. apply lookup_replicate_2. lia.
Qed.

Lemma find_min_max_correct_witness :
  ∃ mn mx pairs,
    find_min_max [5; 3; 9; 1; 4; 1; 9; 2; 6; 3] 10 3 = Ok pairs ∧
    length pairs = Z.to_nat 3 ∧
    (∀ rank, 0 ≤ rank < 3 → pairs !! Z.to_nat rank = Some (mn, mx)) ∧
    is_min [5; 3; 9; 1; 4; 1; 9; 2; 6; 3] mn ∧
    is_max [5; 3; 9; 1; 4; 1; 9; 2; 6; 3] mx.
Proof.
  apply find_min_max_correct; [reflexivity | lia | vm_compute; split; discriminate].
Defined.

(** C4, as the code has it.  During the range reduction rank 0 reads the
    last chunk of [L = size / num_proc] elements followed by the
    [size - L * num_proc] leftover elements, and every other rank [r]
    reads chunk [r - 1].  While the histograms are built every rank [r],
    rank 0 included, reads chunk [r], and rank 0 also reads the leftover
    elements, which trail the evenly divided part. *)
Theorem partition_by_phase (size num_proc rank : Z) :
  0 ≤ size → 1 ≤ num_proc ≤ INT_MAX → 0 ≤ rank < num_proc →
  let L := size ÷ num_proc in
  min_max_indices size num_proc rank =
    (if rank =? 0
     then seqZ ((num_proc - 1) * L) L ++ seqZ (L * num_proc) (size - L * num_proc)
     else seqZ ((rank - 1) * L) L) ∧
  count_indices size num_proc rank =
    (if rank =? 0
     then seqZ 0 L ++ seqZ (L * num_proc) (size - L * num_proc)
     else seqZ (rank * L) L).
Proof.
  intros Hsize Hprocs Hrank L.
  destruct (local_size_bounds size num_proc) as [HL Hb]; [lia..|]. fold L in HL, Hb.
  split.
  - unfold min_max_indices. fold L. unfold L at 1. rewrite min_max_chunk_eq by lia.
    fold L. destruct (Z.eqb_spec rank 0); [|done].
    replace (L * num_proc) with ((num_proc - 1) * L + L) by lia.
    rewrite <- seqZ_app by lia. f_equal; lia.
  - unfold count_indices, local_chunk, leftout_chunk. fold L.
    destruct (Z.eqb_spec rank 0) as [-> | Hne].
    + do 2 f_equal; lia.
    + rewrite app_nil_r. f_equal. lia.
Qed.

Lemma partition_by_phase_witness :
  min_max_indices 10 3 0 = [6; 7; 8; 9] ∧ count_indices 10 3 0 = [0; 1; 2; 9].
Proof.
  apply (partition_by_phase 10 3 0); [lia | vm_compute; split; discriminate | lia].
Defined.

(** C4, as stated, fails for the histogram phase: with ten elements and
    two processes rank 0 counts the first chunk, not the last one. *)
Lemma count_indices_not_last_chunk :
  count_indices 10 2 0 = [0; 1; 2; 3; 4] ∧
  spec_coordinator_indices 10 2 = [5; 6; 7; 8; 9] ∧
  ¬ (count_indices 10 2 0 ≡ₚ spec_coordinator_indices 10 2).
Proof.
  split; [done|]. split; [done|]. intros Hperm.
  assert (0 ∈ spec_coordinator_indices 10 2) as Hin.
  { rewrite <- Hperm. by left. }
  vm_compute in Hin. repeat (apply elem_of_cons in Hin as [Heq | Hin]; [discriminate|]).
  by apply elem_of_nil in Hin.
Qed.

(** C5. The run on [[5,3,9,1,4,1,9,2,6,3]] with two processes: both ranks
    obtain the range [(1, 9)], rank 0 builds the histogram
    [[2,1,2,1,1,1,0,0,2]], and both ranks end with
    [[1,1,2,3,3,4,5,6,9,9]]. *)
Theorem counting_sort_scenario :
  let input := [5; 3; 9; 1; 4; 1; 9; 2; 6; 3] in
  let output := [1; 1; 2; 3; 3; 4; 5; 6; 9; 9] in
  find_min_max input 10 2 = Ok [(1, 9); (1, 9)] ∧
  counting_sort_count (λ _, true) input 10 2
    = Ok (1, 9, [2; 1; 2; 1; 1; 1; 0; 0; 2]) ∧
  counting_sort (λ _, true) input 10 2 = Ok [output; output].
Proof. vm_compute. done. Qed.

(** C6. On a well-formed input that is already non-decreasing, every rank
    ends with the input itself. *)
Theorem counting_sort_idempotent lo hi malloc array size num_proc :
  sort_input lo hi array size num_proc →
  (∀ bytes, 0 < bytes ≤ 4 * (hi - lo + 1) → malloc bytes = true) →
  Sorted Z.le array →
  counting_sort malloc array size num_proc = Ok (replicate (Z.to_nat num_proc) array).
Proof.
  intros Hin Hmalloc Harray.
  destruct (sort_outcome lo hi malloc array size num_proc Hin)
    as (mn & mx & count & out & Hrun & Hlo & Hhi).
  pose proof (sort_run_granted _ _ _ _ _ _ _ _ _ _ Hrun Hlo Hhi Hmalloc) as Hgranted.
  destruct Hrun as [_ _ _ _ Hsorted Hperm _ _ Hpar _].
  rewrite Hpar, Hgranted. do 2 f_equal. by apply (Sorted_unique Z.le).
Qed.

Lemma counting_sort_idempotent_witness :
  counting_sort (λ _, true) [1; 1; 2; 3; 3; 4; 5; 6; 9; 9] 10 3
    = Ok (replicate (Z.to_nat 3) [1; 1; 2; 3; 3; 4; 5; 6; 9; 9]).
Proof.
  apply (counting_sort_idempotent util_RANGE_MIN util_RANGE_MAX); [|done|].
  - sort_input_by_computation.
  - repeat constructor; lia.
Defined.

(** C7, as the code has it.  When [main] returns [EXIT_SUCCESS], rank 0
    has written to standard output the five fields [size], [num_proc],
    [time_init], [time_sort] and [time_elapsed], each one followed by the
    delimiter, and every other rank has written nothing. *)
Theorem main_report malloc RANGE_MIN RANGE_MAX rand_r rand
    time_init time_sort time_elapsed (argv : list string) (num_proc rank : Z) :
  (main malloc RANGE_MIN RANGE_MAX rand_r rand time_init time_sort time_elapsed
        argv num_proc rank).1 = Ok EXIT_SUCCESS →
  ∃ arg, argv !! 1%nat = Some arg ∧
    (main malloc RANGE_MIN RANGE_MAX rand_r rand time_init time_sort time_elapsed
          argv num_proc rank).2 =
      if rank =? 0
      then pretty (atoll arg) +:+ ";" +:+ pretty num_proc +:+ ";" +:+
           time_init +:+ ";" +:+ time_sort +:+ ";" +:+ time_elapsed +:+ ";"
      else "".
Proof.
  unfold main.
  destruct (main_run _ _ _ _ _ _ _ _) as [size | |] eqn:Hrun; [|done..].
  intros _. apply main_run_Ok in Hrun as (arg & Harg & ->). by exists arg.
Qed.

Lemma main_report_witness :
  ∃ arg, ["parallel.out"; "12"] !! 1%nat = Some arg ∧
    (main (λ _, true) util_RANGE_MIN util_RANGE_MAX (λ rank i, rank * 3 + i)
          (λ i, i * 7) "0.00012" "0.00034" "0.00046"
          ["parallel.out"; "12"] 2 0).2 =
      pretty (atoll arg) +:+ ";" +:+ pretty 2 +:+ ";" +:+
      "0.00012" +:+ ";" +:+ "0.00034" +:+ ";" +:+ "0.00046" +:+ ";".
Proof.
  apply (main_report (λ _, true) util_RANGE_MIN util_RANGE_MAX
           (λ rank i, rank * 3 + i) (λ i, i * 7) "0.00012" "0.00034" "0.00046"
           ["parallel.out"; "12"] 2 0).
  vm_compute. reflexivity.
Defined.

(** C7, as stated, fails: the line that rank 0 writes ends with the
    delimiter, so it carries five delimiters where the five fields
    separated by the delimiter carry four. *)
Lemma main_report_trailing_delimiter :
  (main (λ _, true) util_RANGE_MIN util_RANGE_MAX (λ rank i, rank * 3 + i)
        (λ i, i * 7) "0.00012" "0.00034" "0.00046"
        ["parallel.out"; "12"] 2 0)
    = (Ok EXIT_SUCCESS, "12;2;0.00012;0.00034;0.00046;") ∧
  spec_record ["12"; "2"; "0.00012"; "0.00034"; "0.00046"]
    = "12;2;0.00012;0.00034;0.00046" ∧
  "12;2;0.00012;0.00034;0.00046;"
    ≠ spec_record ["12"; "2"; "0.00012"; "0.00034"; "0.00046"] ∧
  delimiters "12;2;0.00012;0.00034;0.00046;" = 5%nat ∧
  delimiters (spec_record ["12"; "2"; "0.00012"; "0.00034"; "0.00046"]) = 4%nat.
Proof. vm_compute. repeat split; discriminate. Qed.

(** C8, as the code has it.  With well-formed surroundings (the macros of
    the interval are [int] constants whose width fits an [int], the
    generators return non-negative values, the group has at least one
    process, and [atoll] reads the argument as an [int]-sized value),
    [main] ends in [exit(EXIT_FAILURE)] exactly in the runs described by
    [main_fails], and returns [EXIT_SUCCESS] in all the others. *)
Theorem main_exit_status malloc RANGE_MIN RANGE_MAX rand_r rand
    time_init time_sort time_elapsed (argv : list string) (num_proc rank : Z) :
  INT_MIN ≤ RANGE_MIN ∧ RANGE_MAX < INT_MAX ∧ RANGE_MAX - RANGE_MIN < INT_MAX →
  (∀ rank i, 0 ≤ rand_r rank i) →
  (∀ i, 0 ≤ rand i) →
  1 ≤ num_proc ≤ INT_MAX →
  (∀ arg, argv !! 1%nat = Some arg → INT_MIN ≤ atoll arg ≤ INT_MAX) →
  ((main malloc RANGE_MIN RANGE_MAX rand_r rand time_init time_sort time_elapsed
         argv num_proc rank).1 = Exit EXIT_FAILURE ↔
     main_fails malloc RANGE_MIN RANGE_MAX rand_r rand argv num_proc) ∧
  ((main malloc RANGE_MIN RANGE_MAX rand_r rand time_init time_sort time_elapsed
         argv num_proc rank).1 = Ok EXIT_SUCCESS ↔
     ¬ main_fails malloc RANGE_MIN RANGE_MAX rand_r rand argv num_proc).
Proof.
  intros Hrange Hrand_r Hrand Hprocs Harg. unfold main.
  destruct (main_run_spec malloc RANGE_MIN RANGE_MAX rand_r rand
              Hrange Hrand_r Hrand argv num_proc rank Hprocs Harg)
    as [[Hfails ->] | (Hruns & arg & _ & ->)]; simpl.
  - split; split; [done | done | discriminate | done].
  - split; split; [discriminate | done | done | done].
Qed.

Lemma main_exit_status_witness :
  ((main (λ bytes, bytes <? 40) util_RANGE_MIN util_RANGE_MAX
         (λ rank i, Z.abs (rank * 3 + i)) (λ i, Z.abs (i * 7))
         "0.00012" "0.00034" "0.00046" ["parallel.out"; "12"] 2 0).1
     = Exit EXIT_FAILURE ↔
   main_fails (λ bytes, bytes <? 40) util_RANGE_MIN util_RANGE_MAX
     (λ rank i, Z.abs (rank * 3 + i)) (λ i, Z.abs (i * 7))
     ["parallel.out"; "12"] 2) ∧
  ((main (λ bytes, bytes <? 40) util_RANGE_MIN util_RANGE_MAX
         (λ rank i, Z.abs (rank * 3 + i)) (λ i, Z.abs (i * 7))
         "0.00012" "0.00034" "0.00046" ["parallel.out"; "12"] 2 0).1
     = Ok EXIT_SUCCESS ↔
   ¬ main_fails (λ bytes, bytes <? 40) util_RANGE_MIN util_RANGE_MAX
       (λ rank i, Z.abs (rank * 3 + i)) (λ i, Z.abs (i * 7))
       ["parallel.out"; "12"] 2).
Proof.
  apply (main_exit_status (λ bytes, bytes <? 40) util_RANGE_MIN util_RANGE_MAX
           (λ rank i, Z.abs (rank * 3 + i)) (λ i, Z.abs (i * 7))
           "0.00012" "0.00034" "0.00046" ["parallel.out"; "12"] 2 0).
  - vm_compute. repeat split; discriminate.
  - intros rank i. lia.
  - intros i. lia.
  - vm_compute. split; discriminate.
  - intros arg [= <-]. vm_compute. split; discriminate.
Defined.

(** C8, as stated, fails: an argument that is not a number but starts
    like one is read as its numeric prefix, and the run succeeds. *)
Lemma main_accepts_malformed_size :
  well_formed_size "12abc" = false ∧
  atoll "12abc" = 12 ∧
  main (λ _, true) util_RANGE_MIN util_RANGE_MAX (λ rank i, rank * 3 + i)
       (λ i, i * 7) "0.00012" "0.00034" "0.00046"
       ["parallel.out"; "12abc"] 2 0
    = (Ok EXIT_SUCCESS, "12;2;0.00012;0.00034;0.00046;").
Proof. vm_compute. done. Qed.

(** C9. On a well-formed input, every rank of the parallel sort ends with
    exactly what the single-process sort of [serial.c] produces; when the
    histogram cannot be allocated both programs exit with
    [EXIT_FAILURE]. *)
Theorem counting_sort_refines_serial lo hi malloc array size num_proc :
  sort_input lo hi array size num_proc →
  counting_sort malloc array size num_proc =
    (out ← Serial.counting_sort malloc array size;
     Ok (replicate (Z.to_nat num_proc) out)).
Proof.
  intros Hin.
  destruct (sort_outcome lo hi malloc array size num_proc Hin)
    as (mn & mx & count & out & [_ _ _ _ _ _ _ _ -> ->] & _).
  by destruct (malloc _).
Qed.

Lemma counting_sort_refines_serial_witness :
  counting_sort (λ _, true) [5; 3; 9; 1; 4; 1; 9; 2; 6; 3] 10 3 =
    (out ← Serial.counting_sort (λ _, true) [5; 3; 9; 1; 4; 1; 9; 2; 6; 3] 10;
     Ok (replicate (Z.to_nat 3) out)).
Proof.
  apply (counting_sort_refines_serial util_RANGE_MIN util_RANGE_MAX).
  sort_input_by_computation.
Defined.

(** C10. For an array of at least one element, [array_min_max] returns the
    least and the greatest of its first [size] elements.  The branch that
    updates [min] skips the comparison with [max]; nothing is lost,
    because both start at [array[0]] and the loop keeps [min <= max]. *)
Theorem array_min_max_correct (array : list Z) (size : Z) :
  1 ≤ size ≤ Z.of_nat (length array) →
  ∃ mn mx, array_min_max array size = Ok (mn, mx) ∧
           is_min (take (Z.to_nat size) array) mn ∧
           is_max (take (Z.to_nat size) array) mx.
Proof.
  intros Hsize.
  destruct (lookup_lt_is_Some_2 array 0) as [a0 H0]; [lia|].
  destruct (array_min_max_spec array size a0 H0) as (mn & mx & Hrun & Hmn & Hmx);
    [lia|].
  assert (a0 ∈ take (Z.to_nat size) array) as Ha0.
  { apply elem_of_take. exists 0%nat. split; [done | lia]. }
  exists mn, mx. split; [done|]. split.
  - by apply (is_min_cons_elem _ a0).
  - by apply (is_max_cons_elem _ a0).
Qed.

Lemma array_min_max_correct_witness :
  ∃ mn mx, array_min_max [5; 3; 9; 1; 4] 5 = Ok (mn, mx) ∧
           is_min (take (Z.to_nat 5) [5; 3; 9; 1; 4]) mn ∧
           is_max (take (Z.to_nat 5) [5; 3; 9; 1; 4]) mx.
Proof. apply array_min_max_correct. simpl. lia. Defined.

(** * Further properties of the code *)

(** ** The partition covers the array *)

Lemma concat_chunks (L : Z) (k : nat) (a : Z) :
  0 ≤ L →
  concat ((λ r, seqZ (r * L) L) <$> seqZ a (Z.of_nat k)) = seqZ (a * L) (Z.of_nat k * L).
Proof.
  intros HL. induction k as [|k IH]; [done|].
  rewrite seqZ_S, fmap_app, concat_app, IH. simpl. rewrite app_nil_r.
  replace (Z.of_nat (S k) * L) with (Z.of_nat k * L + L) by lia.
  rewrite seqZ_app by lia. do 2 f_equal. lia.
Qed.

Lemma count_indices_eq (size num_proc rank : Z) :
  count_indices size num_proc rank =
    seqZ (rank * (size ÷ num_proc)) (size ÷ num_proc) ++
    (if rank =? 0
     then seqZ (size ÷ num_proc * num_proc) (size - size ÷ num_proc * num_proc)
     else []).
Proof.
  unfold count_indices, local_chunk, leftout_chunk. do 2 f_equal. lia.
Qed.

Lemma concat_chunks_Z (L n a : Z) :
  0 ≤ L → 0 ≤ n →
  concat ((λ r, seqZ (r * L) L) <$> seqZ a n) = seqZ (a * L) (n * L).
Proof.
  intros HL Hn. rewrite <- (Z2Nat.id n) by done. by apply concat_chunks.
Qed.

Lemma count_indices_concat (size num_proc : Z) :
  0 ≤ size → 1 ≤ num_proc →
  let L := size ÷ num_proc in
  concat (count_indices size num_proc <$> ranks num_proc) =
    (seqZ 0 L ++ seqZ (L * num_proc) (size - L * num_proc)) ++
    seqZ L ((num_proc - 1) * L).
Proof.
  intros Hsize Hprocs L.
  destruct (local_size_bounds size num_proc) as [HL Hb]; [lia..|]. fold L in HL, Hb.
  rewrite ranks_cons, fmap_cons by lia. simpl.
  rewrite (list_fmap_ext (count_indices size num_proc) (λ r, seqZ (r * L) L)).
  2:{ intros i r [-> _]%lookup_seqZ. rewrite count_indices_eq. fold L.
      destruct (Z.eqb_spec (1 + Z.of_nat i) 0); [lia|]. apply app_nil_r. }
  rewrite concat_chunks_Z, count_indices_eq by lia. fold L. simpl.
  by rewrite Z.mul_1_l.
Qed.

Lemma min_max_indices_concat (size num_proc : Z) :
  0 ≤ size → 1 ≤ num_proc ≤ INT_MAX →
  let L := size ÷ num_proc in
  concat (min_max_indices size num_proc <$> ranks num_proc) =
    seqZ ((num_proc - 1) * L) (size - (num_proc - 1) * L) ++
    seqZ 0 ((num_proc - 1) * L).
Proof.
  intros Hsize Hprocs L.
  destruct (local_size_bounds size num_proc) as [HL Hb]; [lia..|]. fold L in HL, Hb.
  rewrite ranks_cons, fmap_cons by lia. simpl.
  rewrite (list_fmap_ext (min_max_indices size num_proc)
             (λ r, seqZ ((r - 1) * L) L)).
  2:{ intros i r [-> Hi]%lookup_seqZ. unfold min_max_indices.
      rewrite min_max_chunk_eq by lia. fold L.
      by destruct (Z.eqb_spec (1 + Z.of_nat i) 0); [lia|]. }
  rewrite <- (fmap_add_seqZ 1 0).
  rewrite <- (list_fmap_compose (Z.add 1) (λ r, seqZ ((r - 1) * L) L)).
  rewrite (list_fmap_ext _ (λ r, seqZ (r * L) L)).
  2:{ intros i r _. simpl. f_equal. lia. }
  rewrite concat_chunks_Z by lia. unfold min_max_indices.
  rewrite min_max_chunk_eq by lia. fold L. simpl. done.
Qed.

(** X1. The chunks that the ranks scan tile the array: in the histogram
    phase and in the range reduction alike, the indices visited by all
    the ranks together are [0, ..., size - 1], each one exactly once. *)
Theorem partition_cover (size num_proc : Z) :
  0 ≤ size → 1 ≤ num_proc ≤ INT_MAX →
  concat (count_indices size num_proc <$> ranks num_proc) ≡ₚ seqZ 0 size ∧
  concat (min_max_indices size num_proc <$> ranks num_proc) ≡ₚ seqZ 0 size.
Proof.
  intros Hsize Hprocs.
  destruct (local_size_bounds size num_proc) as [HL Hb]; [lia..|].
  rewrite count_indices_concat, min_max_indices_concat by lia.
  set (L := size ÷ num_proc) in *. split.
  - rewrite <- app_assoc.
    etrans; [apply Permutation_app_head, Permutation_app_comm|].
    replace (seqZ 0 size)
      with (seqZ 0 (L + ((num_proc - 1) * L + (size - L * num_proc))))
      by (f_equal; lia).
    rewrite !seqZ_app by nia. rewrite Z.add_0_l.
    by replace (L + (num_proc - 1) * L) with (L * num_proc) by lia.
  - etrans; [apply Permutation_app_comm|].
    replace (seqZ 0 size)
      with (seqZ 0 ((num_proc - 1) * L + (size - (num_proc - 1) * L)))
      by (f_equal; lia).
    rewrite seqZ_app by nia. done.
Qed.

Lemma partition_cover_witness :
  concat (count_indices 10 3 <$> ranks 3) ≡ₚ seqZ 0 10 ∧
  concat (min_max_indices 10 3 <$> ranks 3) ≡ₚ seqZ 0 10.
Proof. apply partition_cover; [lia | vm_compute; split; discriminate]. Defined.

(** ** The histograms *)

(** Extrema and membership in a literal list, by evaluation. *)
Ltac extremum_by_computation :=
  split;
  [ apply list_elem_of_In; simpl; repeat (first [left; reflexivity | right])
  | let x := fresh "x" in let Hx := fresh "Hx" in
    intros x Hx; apply list_elem_of_In in Hx; simpl in Hx; lia ].

Lemma sum_counts_tally mn (n : nat) l :
  (∀ x, x ∈ l → 0 ≤ x - mn < Z.of_nat n) →
  sum_counts (tally mn (replicate n 0) l) = Z.of_nat (length l).
Proof.
  intros Hl. rewrite <- (length_expand _ mn).
  - by rewrite (Permutation_length (expand_tally_perm mn n l Hl)).
  - apply Forall_lookup. intros k c Hc. by apply tally_zeros_bounds in Hc as [? _].
Qed.

Lemma tally_zeros_lookup mn (n : nat) l v :
  0 ≤ v - mn < Z.of_nat n →
  tally mn (replicate n 0) l !! Z.to_nat (v - mn) = Some (occ l v).
Proof.
  intros Hv. rewrite tally_lookup, lookup_replicate_2 by lia. simpl.
  rewrite Z.add_0_l. by replace (mn + Z.of_nat (Z.to_nat (v - mn))) with v by lia.
Qed.

Lemma tally_expand mn (count : list Z) :
  Forall (λ c, 0 ≤ c) count →
  tally mn (replicate (length count) 0) (expand mn count) = count.
Proof.
  intros Hpos. apply list_eq. intros k. rewrite tally_lookup.
  destruct (count !! k) as [c|] eqn:Hc.
  - rewrite lookup_replicate_2 by (by eapply lookup_lt_Some). simpl.
    by rewrite (occ_expand_in count mn k c).
  - rewrite (proj1 (lookup_replicate_None _ _ _)); [done|]. by apply lookup_ge_None.
Qed.

Lemma occ_Permutation l l' v : l ≡ₚ l' → occ l v = occ l' v.
Proof.
  intros Hperm. unfold occ. f_equal.
  by apply (Permutation_count_occ Z.eq_dec).
Qed.

(** X2. On a well-formed input the global histogram that rank 0 builds
    has one counter per value of [[min, max]], and the counter of [v]
    is the number of occurrences of [v] in the whole array. *)
Theorem counting_sort_count_occ lo hi malloc array size num_proc :
  sort_input lo hi array size num_proc →
  (∀ bytes, 0 < bytes ≤ 4 * (hi - lo + 1) → malloc bytes = true) →
  ∃ mn mx count,
    counting_sort_count malloc array size num_proc = Ok (mn, mx, count) ∧
    is_min array mn ∧ is_max array mx ∧
    Z.of_nat (length count) = mx - mn + 1 ∧
    ∀ v, mn ≤ v ≤ mx → count !! Z.to_nat (v - mn) = Some (occ array v).
Proof.
  intros Hin Hmalloc.
  destruct (sort_input_min_max _ _ _ _ _ Hin) as (mn & mx & Hmn & Hmx & Hint).
  destruct Hin as [Hlen Hsize Hprocs _ Hvalues].
  assert (mn ≤ mx) as Hle by (destruct Hmn as [Hm _], Hmx as [_ Hx]; by apply Hx).
  assert (malloc (4 * (mx - mn + 1)) = true) as Hgranted.
  { rewrite Forall_forall in Hvalues.
    destruct Hmn as [Hmn%Hvalues _], Hmx as [Hmx%Hvalues _]. apply Hmalloc. lia. }
  eexists mn, mx, _. split.
  { rewrite (counting_sort_count_spec malloc array size num_proc mn mx) by done.
    by rewrite Hgranted. }
  split; [done|]. split; [done|]. split.
  - rewrite length_tally, length_replicate. lia.
  - intros v Hv. apply tally_zeros_lookup. lia.
Qed.

Lemma counting_sort_count_occ_witness :
  ∃ mn mx count,
    counting_sort_count (λ _, true) [5; 3; 9; 1; 4; 1; 9; 2; 6; 3] 10 3
      = Ok (mn, mx, count) ∧
    is_min [5; 3; 9; 1; 4; 1; 9; 2; 6; 3] mn ∧
    is_max [5; 3; 9; 1; 4; 1; 9; 2; 6; 3] mx ∧
    Z.of_nat (length count) = mx - mn + 1 ∧
    ∀ v, mn ≤ v ≤ mx →
      count !! Z.to_nat (v - mn) = Some (occ [5; 3; 9; 1; 4; 1; 9; 2; 6; 3] v).
Proof.
  apply (counting_sort_count_occ util_RANGE_MIN util_RANGE_MAX); [|done].
  sort_input_by_computation.
Defined.

(** X3. Lines 112-129: once the range [(min, max)] of the array is
    known, the local histogram of rank [r] has one counter per value of
    the range, counts the occurrences of every value within chunk [r],
    and sums to the chunk length [size / num_proc]. *)
Theorem counting_sort_local_occ malloc array size num_proc rank mn mx :
  size = Z.of_nat (length array) → 1 ≤ size ≤ INT_MAX → 1 ≤ num_proc ≤ INT_MAX →
  is_min array mn → is_max array mx →
  INT_MIN ≤ mn ∧ mx < INT_MAX ∧ mx - mn < INT_MAX →
  malloc (4 * (mx - mn + 1)) = true →
  0 ≤ rank < num_proc →
  let L := size ÷ num_proc in
  ∃ local_count,
    counting_sort_local malloc array size num_proc rank mn mx = Ok local_count ∧
    Z.of_nat (length local_count) = mx - mn + 1 ∧
    sum_counts local_count = L ∧
    ∀ v, mn ≤ v ≤ mx →
      local_count !! Z.to_nat (v - mn)
        = Some (occ (slice array (rank * L) ((rank + 1) * L)) v).
Proof.
  intros Hlen Hsize Hprocs Hmn Hmx Hint Hgranted Hrank L.
  destruct (local_size_bounds size num_proc) as [HL Hb]; [lia..|]. fold L in HL, Hb.
  assert (mn ≤ mx) as Hle by (destruct Hmn as [Hm _], Hmx as [_ Hx]; by apply Hx).
  eexists. split.
  { rewrite (counting_sort_local_spec malloc array size num_proc mn mx) by done.
    by rewrite Hgranted. }
  fold L. split; [rewrite length_tally, length_replicate; lia|]. split.
  - rewrite sum_counts_tally.
    + rewrite length_slice by nia. lia.
    + intros x Hx. apply elem_of_slice in Hx as (i & _ & Hx); [|nia].
      apply list_elem_of_lookup_2 in Hx.
      destruct Hmn as [_ Hlo], Hmx as [_ Hhi].
      apply Hlo in Hx as ?. apply Hhi in Hx as ?. lia.
  - intros v Hv. apply tally_zeros_lookup. lia.
Qed.

Lemma counting_sort_local_occ_witness :
  ∃ local_count,
    counting_sort_local (λ _, true) [5; 3; 9; 1; 4; 1; 9; 2; 6; 3] 10 3 1 1 9
      = Ok local_count ∧
    Z.of_nat (length local_count) = 9 - 1 + 1 ∧
    sum_counts local_count = 10 ÷ 3 ∧
    ∀ v, 1 ≤ v ≤ 9 →
      local_count !! Z.to_nat (v - 1)
        = Some (occ (slice [5; 3; 9; 1; 4; 1; 9; 2; 6; 3]
                       (1 * (10 ÷ 3)) ((1 + 1) * (10 ÷ 3))) v).
Proof.
  apply (counting_sort_local_occ (λ _, true) [5; 3; 9; 1; 4; 1; 9; 2; 6; 3] 10 3 1 1 9).
  - reflexivity.
  - vm_compute; split; discriminate.
  - vm_compute; split; discriminate.
  - extremum_by_computation.
  - extremum_by_computation.
  - vm_compute; repeat split; discriminate.
  - reflexivity.
  - lia.
Defined.

(** X4. Round trip between the two halves of the sort: counting the
    sequence that [rebuild] writes for a histogram gives that histogram
    back. *)
Theorem rebuild_count_round_trip (array count : list Z) (mn mx : Z) :
  INT_MIN ≤ mn ≤ mx → mx < INT_MAX → mx - mn < INT_MAX →
  Z.of_nat (length count) = mx - mn + 1 →
  Forall (λ c, 0 ≤ c) count →
  sum_counts count = Z.of_nat (length array) →
  Z.of_nat (length array) ≤ INT_MAX →
  ∃ out,
    rebuild array count mn mx = Ok (out, Z.of_nat (length array)) ∧
    count_elements out mn 0 (Z.of_nat (length array))
      (replicate (Z.to_nat (mx - mn + 1)) 0) = Ok count.
Proof.
  intros Hmn Hmx Hwidth Hcount Hpos Hsum Hsize.
  exists (expand mn count). split; [by apply rebuild_spec|].
  assert (length (expand mn count) = length array) as Hout.
  { apply Nat2Z.inj. by rewrite length_expand. }
  rewrite count_elements_spec.
  - rewrite <- Hout, slice_all. f_equal.
    replace (Z.to_nat (mx - mn + 1)) with (length count) by lia.
    by apply tally_expand.
  - lia.
  - lia.
  - rewrite length_replicate. lia.
  - intros x Hx%elem_of_expand. rewrite length_replicate. lia.
  - intros k v [-> _]%lookup_replicate. lia.
Qed.

Lemma rebuild_count_round_trip_witness :
  ∃ out,
    rebuild [0; 0; 0; 0; 0] [2; 0; 1; 2] 4 7 = Ok (out, Z.of_nat 5) ∧
    count_elements out 4 0 (Z.of_nat 5) (replicate (Z.to_nat (7 - 4 + 1)) 0)
      = Ok [2; 0; 1; 2].
Proof.
  apply (rebuild_count_round_trip [0; 0; 0; 0; 0] [2; 0; 1; 2] 4 7).
  - vm_compute; split; discriminate.
  - reflexivity.
  - reflexivity.
  - reflexivity.
  - repeat constructor; lia.
  - reflexivity.
  - vm_compute; discriminate.
Defined.

(** X5. The sort sees its input as a multiset: two arrangements of the
    same well-formed elements give the same outcome on every rank. *)
Theorem counting_sort_permutation lo hi malloc array array' size num_proc :
  sort_input lo hi array size num_proc → array' ≡ₚ array →
  counting_sort malloc array' size num_proc = counting_sort malloc array size num_proc.
Proof.
  intros Hin Hperm.
  destruct (sort_input_min_max _ _ _ _ _ Hin) as (mn & mx & Hmn & Hmx & Hint).
  destruct Hin as [Hlen Hsize Hprocs _ _].
  assert (is_min array' mn) as Hmn'.
  { destruct Hmn as [Hm Hlo]. split; [by rewrite Hperm|].
    intros x Hx. apply Hlo. by rewrite <- Hperm. }
  assert (is_max array' mx) as Hmx'.
  { destruct Hmx as [Hm Hhi]. split; [by rewrite Hperm|].
    intros x Hx. apply Hhi. by rewrite <- Hperm. }
  rewrite (counting_sort_spec malloc array size num_proc mn mx) by done.
  rewrite (counting_sort_spec malloc array' size num_proc mn mx); try done.
  - destruct (malloc _); [|done]. do 3 f_equal.
    apply tally_ext. intros v. by apply occ_Permutation.
  - by rewrite (Permutation_length Hperm).
Qed.

Lemma counting_sort_permutation_witness :
  counting_sort (λ _, true) [3; 6; 2; 9; 1; 4; 1; 9; 3; 5] 10 3
    = counting_sort (λ _, true) [5; 3; 9; 1; 4; 1; 9; 2; 6; 3] 10 3.
Proof.
  apply (counting_sort_permutation util_RANGE_MIN util_RANGE_MAX).
  - sort_input_by_computation.
  - apply Permutation_sym, (Permutation_rev [5; 3; 9; 1; 4; 1; 9; 2; 6; 3]).
Defined.

(** X6. When the allocator refuses the histogram of a well-formed input,
    the parallel and the single-process sort both end in
    [exit(EXIT_FAILURE)]. *)
Theorem counting_sort_alloc_failure lo hi malloc array size num_proc mn mx :
  sort_input lo hi array size num_proc →
  is_min array mn → is_max array mx →
  malloc (4 * (mx - mn + 1)) = false →
  counting_sort malloc array size num_proc = Exit EXIT_FAILURE ∧
  Serial.counting_sort malloc array size = Exit EXIT_FAILURE.
Proof.
  intros Hin Hmn Hmx Hrefused.
  destruct (sort_input_min_max _ _ _ _ _ Hin) as (mn' & mx' & Hmn' & Hmx' & Hint).
  rewrite (is_min_unique _ _ _ Hmn' Hmn), (is_max_unique _ _ _ Hmx' Hmx) in Hint.
  destruct Hin as [Hlen Hsize Hprocs _ _].
  rewrite (counting_sort_spec malloc array size num_proc mn mx) by done.
  rewrite (serial_counting_sort_spec malloc array size mn mx) by done.
  by rewrite Hrefused.
Qed.

Lemma counting_sort_alloc_failure_witness :
  counting_sort (λ bytes, bytes <? 36) [5; 3; 9; 1; 4; 1; 9; 2; 6; 3] 10 3
    = Exit EXIT_FAILURE ∧
  Serial.counting_sort (λ bytes, bytes <? 36) [5; 3; 9; 1; 4; 1; 9; 2; 6; 3] 10
    = Exit EXIT_FAILURE.
Proof.
  apply (counting_sort_alloc_failure util_RANGE_MIN util_RANGE_MAX
           (λ bytes, bytes <? 36) [5; 3; 9; 1; 4; 1; 9; 2; 6; 3] 10 3 1 9).
  - sort_input_by_computation.
  - extremum_by_computation.
  - extremum_by_computation.
  - reflexivity.
Defined.

(** ** Where the code leaves defined behaviour, and where it exits *)

Lemma for_loop_Undefined {St : Type} (body : Z → St → result St) n : ∀ i s j,
  i ≤ j < i + Z.of_nat n →
  (∀ k t, i ≤ k < j → ∃ t', body k t = Ok t') →
  (∀ t, body j t = Undefined) →
  for_loop n i body s = Undefined.
Proof.
  induction n as [|n IH]; intros i s j Hj Hok Hfail; [lia|]. simpl.
  destruct (decide (i = j)) as [-> | Hne].
  - by rewrite Hfail.
  - destruct (Hok i s) as [t' ->]; [lia|]. rewrite bind_Ok.
    apply (IH (i + 1) t' j); [lia | | done].
    intros k t Hk. apply Hok. lia.
Qed.

Lemma mapM_Undefined {A B : Type} (f : A → result B) (x : A) (l : list A) :
  f x = Undefined → mapM f (x :: l) = Undefined.
Proof. intros H. simpl. by rewrite H. Qed.

(** X7. [array_min_max] never exits; it returns exactly when the array
    has a first element to start from and at least [size] elements to
    visit, and reads out of bounds otherwise. *)
Theorem array_min_max_defined (array : list Z) (size : Z) :
  match array_min_max array size with
  | Ok _ => array ≠ [] ∧ size ≤ Z.of_nat (length array)
  | Exit _ => False
  | Undefined => array = [] ∨ Z.of_nat (length array) < size
  end.
Proof.
  destruct array as [|a0 array]; [by left|].
  destruct (Z_le_gt_dec size (Z.of_nat (length (a0 :: array)))) as [Hle | Hgt].
  - destruct (Z_le_gt_dec 0 size) as [Hpos | Hneg].
    + destruct (array_min_max_spec (a0 :: array) size a0) as (mn & mx & -> & _);
        [done | lia | done].
    + unfold array_min_max. simpl. by rewrite for_range_empty by lia.
  - unfold array_min_max, for_range.
    assert (load (a0 :: array) 0 = Ok a0) as -> by done. rewrite bind_Ok.
    rewrite (for_loop_Undefined _ _ _ _ (Z.of_nat (length (a0 :: array)))).
    + right. lia.
    + lia.
    + intros k [mn mx] Hk.
      destruct (lookup_lt_is_Some_2 (a0 :: array) (Z.to_nat k)) as [x Hx]; [lia|].
      assert (load (a0 :: array) k = Ok x) as -> by (apply load_Ok; split; [lia | done]).
      rewrite bind_Ok. destruct (x <? mn); [eauto|]. destruct (x >? mx); eauto.
    + intros [mn mx]. unfold load.
      destruct (Z.ltb_spec (Z.of_nat (length (a0 :: array))) 0); [done|].
      by rewrite Nat2Z.id, (lookup_ge_None_2 (a0 :: array)) by lia.
Qed.

(** X8. [counting_sort] has no defined outcome on an empty array,
    whatever the size and the number of processes it is told: the range
    reduction reads [array[0]] on every rank. *)
Theorem counting_sort_undefined malloc (size num_proc : Z) :
  counting_sort malloc [] size num_proc = Undefined.
Proof.
  unfold counting_sort, counting_sort_count, find_min_max.
  destruct (Z_le_gt_dec num_proc 0) as [Hnone | Hsome].
  - unfold ranks. by rewrite seqZ_nil by lia.
  - rewrite ranks_cons by lia. erewrite mapM_Undefined; [done|].
    unfold find_min_max_local. rewrite c_div_Ok by lia. rewrite bind_Ok.
    destruct (min_max_chunk _ _ _ _) as [start len].
    assert (ptr_add [] start = []) as ->.
    { unfold ptr_add. destruct (start <? 0); [done|]. apply drop_nil. }
    done.
Qed.

(** X9. A rank whose chunk is empty, because the group has more processes
    than the array has elements, contributes [array[0]] to both
    reductions: [array_min_max] reads it before its loop. *)
Theorem find_min_max_local_empty_chunk (array : list Z) (size num_proc rank a0 : Z) :
  array !! 0%nat = Some a0 → 0 ≤ size < num_proc → 0 < rank →
  find_min_max_local array size num_proc rank = Ok (a0, a0).
Proof.
  intros Ha0 Hsize Hrank. unfold find_min_max_local.
  rewrite c_div_Ok, Z.quot_small by lia. rewrite bind_Ok. unfold min_max_chunk.
  destruct (Z.gtb_spec rank 0); [|lia].
  rewrite Z.mul_0_r. unfold array_min_max.
  assert (load (ptr_add array 0) 0 = Ok a0) as -> by (by apply load_Ok).
  rewrite bind_Ok. by apply for_range_empty.
Qed.

Lemma find_min_max_local_empty_chunk_witness :
  find_min_max_local [7; 4] 2 5 3 = Ok (7, 7).
Proof. apply find_min_max_local_empty_chunk; [reflexivity | lia | lia]. Defined.

Lemma array_init_random_exits malloc rand_r rand (array : list Z)
    (size min max num_proc : Z) :
  0 ≤ size < num_proc →
  array_init_random malloc rand_r rand array size min max num_proc
    = Exit EXIT_FAILURE.
Proof.
  intros Hsize. unfold array_init_random.
  rewrite c_div_Ok, Z.quot_small by lia. rewrite bind_Ok, ranks_cons by lia.
  by erewrite mapM_Exit.
Qed.

(** X10. [array_init_random] ends in [exit(EXIT_FAILURE)] whenever the
    group has more processes than the array has elements: the per-rank
    block is then empty and [safe_alloc] refuses to allocate it, whatever
    the allocator would grant. *)
Theorem array_init_random_too_few malloc rand_r rand (array : list Z)
    (size min max num_proc : Z) :
  0 ≤ size < num_proc →
  array_init_random malloc rand_r rand array size min max num_proc
    = Exit EXIT_FAILURE.
Proof. apply array_init_random_exits. Qed.

Lemma array_init_random_too_few_witness :
  array_init_random (λ _, true) (λ rank i, rank * 3 + i) (λ i, i * 7)
    [0; 0; 0] 3 0 9 4 = Exit EXIT_FAILURE.
Proof. apply array_init_random_too_few. lia. Defined.

Lemma array_init_from_file_exits malloc (array : list Z) (size : Z)
    (file : list Z) (num_proc : Z) :
  0 ≤ size < num_proc →
  array_init_from_file malloc array size file num_proc = Exit EXIT_FAILURE.
Proof.
  intros Hsize. unfold array_init_from_file.
  rewrite c_div_Ok, Z.quot_small by lia. rewrite bind_Ok, ranks_cons by lia.
  by erewrite mapM_Exit.
Qed.

(** X11. [array_init_from_file] ends in [exit(EXIT_FAILURE)] in the same
    situation, before any rank reads the file. *)
Theorem array_init_from_file_too_few malloc (array : list Z) (size : Z)
    (file : list Z) (num_proc : Z) :
  0 ≤ size < num_proc →
  array_init_from_file malloc array size file num_proc = Exit EXIT_FAILURE.
Proof. apply array_init_from_file_exits. Qed.

Lemma array_init_from_file_too_few_witness :
  array_init_from_file (λ _, true) [0; 0; 0] 3 [8; 1; 5] 4 = Exit EXIT_FAILURE.
Proof. apply array_init_from_file_too_few. lia. Defined.

(** X12. [main] given a size below the number of processes, a size that
    [atoll] reads as zero or less included, ends in [exit(EXIT_FAILURE)]
    on every rank and writes nothing to standard output, whatever the
    allocator grants. *)
Theorem main_too_few_elements malloc RANGE_MIN RANGE_MAX rand_r rand
    time_init time_sort time_elapsed (argv : list string) (arg : string)
    (num_proc rank : Z) :
  argv !! 1%nat = Some arg →
  INT_MIN ≤ atoll arg < num_proc → num_proc ≤ INT_MAX →
  main malloc RANGE_MIN RANGE_MAX rand_r rand time_init time_sort time_elapsed
       argv num_proc rank = (Exit EXIT_FAILURE, "").
Proof.
  intros Harg Hsize Hprocs. unfold main, main_run.
  destruct (negb _); [done|]. destruct (RANGE_MAX <=? RANGE_MIN); [done|].
  rewrite Harg. simpl of_option. rewrite bind_Ok.
  assert (wrap_llong (atoll arg * sizeof_int) = 4 * atoll arg) as ->.
  { unfold sizeof_int. rewrite wrap_llong_id; [lia|].
    unfold LLONG_MIN, LLONG_MAX, INT_MIN, INT_MAX in *. lia. }
  destruct (safe_alloc_cases malloc (4 * atoll arg)) as [[_ ->] | [Hgranted ->]];
    [done|].
  rewrite bind_Ok, array_init_random_exits; [done|].
  unfold alloc_fails in Hgranted. lia.
Qed.

Lemma main_too_few_elements_witness :
  main (λ _, true) util_RANGE_MIN util_RANGE_MAX (λ rank i, rank * 3 + i)
       (λ i, i * 7) "0.00012" "0.00034" "0.00046"
       ["parallel.out"; "3"] 4 0 = (Exit EXIT_FAILURE, "").
Proof.
  apply (main_too_few_elements _ _ _ _ _ _ _ _ _ "3"); [reflexivity | |].
  - vm_compute. split; [discriminate | reflexivity].
  - vm_compute. discriminate.
Defined.

(** ** The random fill and its test *)

(** X13. With at least as many elements as processes and an allocator
    that grants the per-rank block, [array_init_random] fills the whole
    array with values of [[min, max]]: the blocks of the ranks as well as
    the leftover elements. *)
Theorem array_init_random_in_range malloc min max rand_r rand (array : list Z)
    (size num_proc : Z) :
  INT_MIN ≤ min ∧ max < INT_MAX ∧ max - min < INT_MAX → min < max →
  (∀ rank i, 0 ≤ rand_r rank i) → (∀ i, 0 ≤ rand i) →
  Z.of_nat (length array) = size → 1 ≤ num_proc ≤ size → size ≤ INT_MAX →
  malloc (4 * (size ÷ num_proc)) = true →
  ∃ data,
    array_init_random malloc rand_r rand array size min max num_proc = Ok data ∧
    Z.of_nat (length data) = size ∧
    Forall (λ x, min ≤ x ≤ max) data.
Proof.
  intros Hrange Hlt Hrand_r Hrand Hlen Hprocs Hsize Hgranted.
  destruct (array_init_random_spec malloc min max rand_r rand Hrange Hrand_r Hrand
              array size num_proc) as [[Hfail _] | [_ Hdata]]; [lia.. | done | | done].
  destruct Hfail as [Hsmall | Hrefused]; [|congruence].
  pose proof (Z.quot_le_lower_bound size num_proc 1). lia.
Qed.

Lemma array_init_random_in_range_witness :
  ∃ data,
    array_init_random (λ _, true) (λ rank i, Z.abs (rank * 3 + i)) (λ i, Z.abs (i * 7))
      [0; 0; 0; 0; 0; 0; 0] 7 2 5 3 = Ok data ∧
    Z.of_nat (length data) = 7 ∧
    Forall (λ x, 2 ≤ x ≤ 5) data.
Proof.
  apply array_init_random_in_range.
  - vm_compute. repeat split; discriminate.
  - lia.
  - intros rank i. lia.
  - intros i. lia.
  - reflexivity.
  - lia.
  - vm_compute. discriminate.
  - reflexivity.
Defined.

Lemma elements_in_range_from_spec (array : list Z) (min max : Z) (n : nat) :
  ∀ i : nat, (i + n ≤ length array)%nat →
  Test.elements_in_range_from n (Z.of_nat i) array min max =
    Ok (bool_decide (Forall (λ x, min ≤ x ≤ max) (take n (drop i array)))).
Proof.
  induction n as [|n IH]; intros i Hi; simpl.
  - done.
  - destruct (lookup_lt_is_Some_2 array i) as [x Hx]; [lia|].
    assert (load array (Z.of_nat i) = Ok x) as ->
      by (apply load_Ok; rewrite Nat2Z.id; split; [lia | done]).
    rewrite bind_Ok, (drop_S _ _ _ Hx). simpl.
    destruct ((x <? min) || (x >? max)) eqn:Hout.
    + rewrite bool_decide_eq_false_2; [done|].
      intros [Hin _]%Forall_cons. apply orb_true_iff in Hout as [H%Z.ltb_lt | H].
      * lia.
      * rewrite Z.gtb_ltb in H. apply Z.ltb_lt in H. lia.
    + apply orb_false_iff in Hout as [Hlo%Z.ltb_ge Hhi]. rewrite Z.gtb_ltb in Hhi.
      apply Z.ltb_ge in Hhi.
      replace (Z.of_nat i + 1) with (Z.of_nat (S i)) by lia. rewrite IH by lia.
      f_equal. apply bool_decide_ext. rewrite Forall_cons. tauto.
Qed.

Lemma elements_in_range_decides (array : list Z) (size min max : Z) :
  size ≤ Z.of_nat (length array) →
  Test.elements_in_range array size min max =
    Ok (bool_decide (Forall (λ x, min ≤ x ≤ max) (take (Z.to_nat size) array))).
Proof.
  intros Hsize. unfold Test.elements_in_range.
  change 0 with (Z.of_nat 0).
  rewrite (elements_in_range_from_spec array min max (Z.to_nat size) 0) by lia.
  by rewrite drop_0.
Qed.

(** X14. [elements_in_range] only reads, never exits, and decides whether
    the first [size] elements of the array all lie within [[min, max]]. *)
Theorem elements_in_range_spec (array : list Z) (size min max : Z) :
  size ≤ Z.of_nat (length array) →
  Test.elements_in_range array size min max =
    Ok (bool_decide (Forall (λ x, min ≤ x ≤ max) (take (Z.to_nat size) array))).
Proof. apply elements_in_range_decides. Qed.

Lemma elements_in_range_spec_witness :
  Test.elements_in_range [4; 8; 15; 16; 23] 4 0 20 =
    Ok (bool_decide (Forall (λ x, 0 ≤ x ≤ 20) (take (Z.to_nat 4) [4; 8; 15; 16; 23]))).
Proof. apply elements_in_range_spec. simpl. lia. Defined.

(** X15. The range check of [test_init_random] never fails: with interval
    macros that fit [int] arithmetic and non-negative generator values
    the test ends exactly as [array_init_random] does. *)
Theorem test_init_random_passes malloc RANGE_MIN RANGE_MAX rand_r rand
    (array : list Z) (size num_proc : Z) :
  INT_MIN ≤ RANGE_MIN ∧ RANGE_MAX < INT_MAX ∧ RANGE_MAX - RANGE_MIN < INT_MAX →
  RANGE_MIN < RANGE_MAX →
  (∀ rank i, 0 ≤ rand_r rank i) → (∀ i, 0 ≤ rand i) →
  Z.of_nat (length array) = size → 1 ≤ size ≤ INT_MAX → 1 ≤ num_proc ≤ INT_MAX →
  Test.test_init_random malloc RANGE_MIN RANGE_MAX rand_r rand array size num_proc =
    array_init_random malloc rand_r rand array size RANGE_MIN RANGE_MAX num_proc.
Proof.
  intros Hrange Hlt Hrand_r Hrand Hlen Hsize Hprocs. unfold Test.test_init_random.
  destruct (array_init_random_spec malloc RANGE_MIN RANGE_MAX rand_r rand
              Hrange Hrand_r Hrand array size num_proc)
    as [[_ ->] | (_ & data & -> & Hdata & Hvalues)]; [done.. | done |].
  rewrite bind_Ok, elements_in_range_decides by lia.
  rewrite bool_decide_eq_true_2; [done|]. by apply Forall_take.
Qed.

Lemma test_init_random_passes_witness :
  Test.test_init_random (λ _, true) util_RANGE_MIN util_RANGE_MAX
    (λ rank i, Z.abs (rank * 3 + i)) (λ i, Z.abs (i * 7)) [0; 0; 0; 0; 0; 0; 0] 7 3 =
  array_init_random (λ _, true) (λ rank i, Z.abs (rank * 3 + i)) (λ i, Z.abs (i * 7))
    [0; 0; 0; 0; 0; 0; 0] 7 util_RANGE_MIN util_RANGE_MAX 3.
Proof.
  apply test_init_random_passes.
  - vm_compute. repeat split; discriminate.
  - reflexivity.
  - intros rank i. lia.
  - intros i. lia.
  - reflexivity.
  - vm_compute. split; discriminate.
  - vm_compute. split; discriminate.
Defined.

(** ** The test of the sort *)

Lemma Sorted_le_adjacent (l : list Z) :
  (∀ (i : nat) a b, l !! i = Some a → l !! S i = Some b → a ≤ b) → Sorted Z.le l.
Proof.
  induction l as [|x l IH]; intros Hadj; constructor.
  - apply IH. intros i a b Ha Hb. by apply (Hadj (S i)).
  - destruct l as [|y l]; constructor. by apply (Hadj 0%nat).
Qed.

Lemma Sorted_take_S (array : list Z) (n : nat) x y :
  array !! n = Some y → array !! S n = Some x →
  Sorted Z.le (take (S (S n)) array) ↔ Sorted Z.le (take (S n) array) ∧ y ≤ x.
Proof.
  intros Hy Hx. split.
  - intros Hsorted. split.
    + apply Sorted_le_adjacent. intros i a b Ha Hb.
      apply lookup_take_Some in Ha as [Ha ?], Hb as [Hb ?].
      apply (Sorted_le_lookup _ i a b Hsorted); by rewrite lookup_take_lt by lia.
    + apply (Sorted_le_lookup _ n y x Hsorted); by rewrite lookup_take_lt by lia.
  - intros [Hsorted Hle]. apply Sorted_le_adjacent. intros i a b Ha Hb.
    apply lookup_take_Some in Ha as [Ha ?], Hb as [Hb ?].
    destruct (decide (i = n)) as [-> | Hne]; [congruence|].
    apply (Sorted_le_lookup _ i a b Hsorted); by rewrite lookup_take_lt by lia.
Qed.

Lemma check_loop_spec (array : list Z) (n : nat) :
  (n < length array)%nat →
  let loop := for_loop_down n (Z.of_nat n) (λ i (_ : unit),
                x ← load array i;
                y ← load array (i - 1);
                if x <? y then Exit EXIT_FAILURE else Ok tt) tt in
  (Sorted Z.le (take (S n) array) → loop = Ok tt) ∧
  (¬ Sorted Z.le (take (S n) array) → loop = Exit EXIT_FAILURE).
Proof.
  induction n as [|n IH]; intros Hn loop; unfold loop.
  - split; [done|]. intros []. destruct array; repeat constructor.
  - destruct IH as [IHok IHbad]; [lia|].
    destruct (lookup_lt_is_Some_2 array (S n)) as [x Hx]; [lia|].
    destruct (lookup_lt_is_Some_2 array n) as [y Hy]; [lia|].
    pose proof (Sorted_take_S array n x y Hy Hx) as Hiff.
    cbn [for_loop_down].
    assert (load array (Z.of_nat (S n)) = Ok x) as ->
      by (apply load_Ok; rewrite Nat2Z.id; split; [lia | done]).
    replace (Z.of_nat (S n) - 1) with (Z.of_nat n) by lia.
    assert (load array (Z.of_nat n) = Ok y) as ->
      by (apply load_Ok; rewrite Nat2Z.id; split; [lia | done]).
    rewrite !bind_Ok. destruct (Z.ltb_spec x y) as [Hlt | Hge].
    + split; [|done]. intros [_ ?]%Hiff. lia.
    + rewrite bind_Ok. split.
      * intros [? _]%Hiff. by apply IHok.
      * intros Hbad. apply IHbad. intros ?. apply Hbad, Hiff. by split.
Qed.

Lemma check_sorted_decides (array : list Z) (size : Z) :
  size ≤ Z.of_nat (length array) →
  (Sorted Z.le (take (Z.to_nat size) array) → Test.check_sorted array size = Ok tt) ∧
  (¬ Sorted Z.le (take (Z.to_nat size) array) →
   Test.check_sorted array size = Exit EXIT_FAILURE).
Proof.
  intros Hsize. unfold Test.check_sorted, for_range_down.
  destruct (Z_le_gt_dec size 1) as [Hsmall | Hlarge].
  - replace (Z.to_nat (size - 1 - 0)) with 0%nat by lia.
    split; [done|]. intros [].
    destruct (Z.to_nat size) as [|[|n]] eqn:Hn; [| |lia].
    + constructor.
    + destruct array; repeat constructor.
  - pose proof (check_loop_spec array (Z.to_nat (size - 1)) ltac:(lia)) as Hloop.
    cbv zeta in Hloop.
    replace (S (Z.to_nat (size - 1))) with (Z.to_nat size) in Hloop by lia.
    replace (Z.of_nat (Z.to_nat (size - 1))) with (size - 1) in Hloop by lia.
    by replace (size - 1 - 0) with (size - 1) by lia.
Qed.

(** X16. The checking loop of [test_sort] (lines 167-178) lets the
    process continue exactly when the first [size] elements of the array
    are in non-decreasing order, and ends it with [exit(EXIT_FAILURE)]
    otherwise. *)
Theorem check_sorted_spec (array : list Z) (size : Z) :
  size ≤ Z.of_nat (length array) →
  (Sorted Z.le (take (Z.to_nat size) array) → Test.check_sorted array size = Ok tt) ∧
  (¬ Sorted Z.le (take (Z.to_nat size) array) →
   Test.check_sorted array size = Exit EXIT_FAILURE).
Proof. apply check_sorted_decides. Qed.

Lemma check_sorted_spec_witness :
  (Sorted Z.le (take (Z.to_nat 4) [1; 2; 1; 5]) →
   Test.check_sorted [1; 2; 1; 5] 4 = Ok tt) ∧
  (¬ Sorted Z.le (take (Z.to_nat 4) [1; 2; 1; 5]) →
   Test.check_sorted [1; 2; 1; 5] 4 = Exit EXIT_FAILURE).
Proof. apply check_sorted_spec. simpl. lia. Defined.

Lemma mapM_replicate_Ok {A : Type} (f : A → result A) (x : A) (n : nat) :
  f x = Ok x → mapM f (replicate n x) = Ok (replicate n x).
Proof.
  intros Hx. induction n as [|n IH]; [done|].
  change (mapM f (replicate (S n) x))
    with (y ← f x; k ← mapM f (replicate n x); Ok (y :: k)).
  by rewrite Hx, bind_Ok, IH.
Qed.

Lemma test_sort_Ok lo hi malloc array size num_proc :
  sort_input lo hi array size num_proc →
  (∀ bytes, 0 < bytes ≤ 4 * (hi - lo + 1) → malloc bytes = true) →
  ∃ out,
    Test.test_sort malloc array size num_proc
      = Ok (replicate (Z.to_nat num_proc) out) ∧
    Sorted Z.le out ∧ out ≡ₚ array.
Proof.
  intros Hin Hmalloc.
  destruct (sort_outcome lo hi malloc array size num_proc Hin)
    as (mn & mx & count & out & Hrun & Hlo & Hhi).
  pose proof (sort_run_granted _ _ _ _ _ _ _ _ _ _ Hrun Hlo Hhi Hmalloc) as Hgranted.
  destruct Hrun as [_ _ _ _ Hsorted Hperm _ _ Hpar _].
  destruct Hin as [Hlen Hsize Hprocs _ _].
  assert (length out = Z.to_nat size) as Hout.
  { rewrite (Permutation_length Hperm). lia. }
  exists out. split; [|done]. unfold Test.test_sort.
  rewrite Hpar, Hgranted, bind_Ok. unfold MPI_Bcast.
  rewrite lookup_replicate_2 by lia. simpl of_option. rewrite bind_Ok, fmap_replicate.
  rewrite take_ge, drop_ge, app_nil_r by lia. rewrite bind_Ok.
  apply mapM_replicate_Ok.
  destruct (check_sorted_decides out size) as [-> _]; [lia | done | by rewrite take_ge by lia].
Qed.

(** X17. On a well-formed input, with an allocator that grants the
    histogram, [test_sort] reports no failure: after the sort and the
    second broadcast every rank holds the same non-decreasing
    rearrangement of the input and passes the checking loop. *)
Theorem test_sort_passes lo hi malloc array size num_proc :
  sort_input lo hi array size num_proc →
  (∀ bytes, 0 < bytes ≤ 4 * (hi - lo + 1) → malloc bytes = true) →
  ∃ out,
    Test.test_sort malloc array size num_proc
      = Ok (replicate (Z.to_nat num_proc) out) ∧
    Sorted Z.le out ∧ out ≡ₚ array.
Proof. apply test_sort_Ok. Qed.

Lemma test_sort_passes_witness :
  ∃ out,
    Test.test_sort (λ _, true) [5; 3; 9; 1; 4; 1; 9; 2; 6; 3] 10 3
      = Ok (replicate (Z.to_nat 3) out) ∧
    Sorted Z.le out ∧ out ≡ₚ [5; 3; 9; 1; 4; 1; 9; 2; 6; 3].
Proof.
  apply (test_sort_passes util_RANGE_MIN util_RANGE_MAX); [|done].
  sort_input_by_computation.
Defined.

(** ** The fill from a file *)

Lemma Forall2_fmap_eq {A B : Type} (f : A → B) (l : list A) (k : list B) :
  Forall2 (λ x y, y = f x) l k → k = f <$> l.
Proof. induction 1 as [|x y l k -> _ IH]; [done|]. simpl. by f_equal. Qed.

Lemma concat_file_blocks (file : list Z) (L : nat) (k : nat) :
  concat ((λ r, take L (drop (Z.to_nat (r * Z.of_nat L)) file)) <$> seqZ 0 (Z.of_nat k))
    = take (k * L) file.
Proof.
  induction k as [|k IH]; [done|].
  rewrite seqZ_S, fmap_app, concat_app, IH. simpl. rewrite app_nil_r.
  replace (Z.to_nat ((0 + Z.of_nat k) * Z.of_nat L)) with (k * L)%nat by lia.
  rewrite take_take_drop. f_equal. lia.
Qed.

Lemma MPI_File_read_at_Ok (file buf : list Z) (offset at_ count : Z) :
  0 ≤ offset → 0 ≤ at_ → 0 ≤ count →
  offset ÷ sizeof_int + count ≤ Z.of_nat (length file) →
  at_ + count ≤ Z.of_nat (length buf) →
  MPI_File_read_at file offset buf at_ count =
    Ok (take (Z.to_nat at_) buf ++
        take (Z.to_nat count) (drop (Z.to_nat (offset ÷ sizeof_int)) file) ++
        drop (Z.to_nat (at_ + count)) buf).
Proof.
  intros Hoffset Hat Hcount Hfile Hbuf. unfold MPI_File_read_at.
  destruct (Z.ltb_spec offset 0); [lia|]. destruct (Z.ltb_spec at_ 0); [lia|].
  destruct (Z.ltb_spec count 0); [lia|]. simpl.
  assert (0 ≤ offset ÷ sizeof_int) by (apply Z.quot_pos; unfold sizeof_int; lia).
  assert (length (take (Z.to_nat count) (drop (Z.to_nat (offset ÷ sizeof_int)) file))
          = Z.to_nat count) as Hdata.
  { rewrite length_take, length_drop. lia. }
  rewrite Hdata. destruct (Z.leb_spec (Z.of_nat (Z.to_nat count))
                             (Z.of_nat (length buf) - at_)); [|lia].
  by rewrite Z2Nat.inj_add by lia.
Qed.

Lemma array_init_from_file_take malloc (array : list Z) (size : Z)
    (file : list Z) (num_proc : Z) :
  Z.of_nat (length array) = size → 1 ≤ num_proc ≤ size → size ≤ INT_MAX →
  size ≤ Z.of_nat (length file) →
  malloc (4 * (size ÷ num_proc)) = true →
  array_init_from_file malloc array size file num_proc
    = Ok (take (Z.to_nat size) file).
Proof.
  intros Hlen Hprocs Hsize Hfile Hgranted.
  destruct (local_size_bounds size num_proc) as [HL Hb]; [lia..|].
  pose proof (Z.quot_le_lower_bound size num_proc 1 ltac:(lia) ltac:(lia)) as HL1.
  set (L := size ÷ num_proc) in *.
  assert (L ≤ INT_MAX) as HLmax by nia.
  unfold array_init_from_file. rewrite c_div_Ok by lia. fold L.
  rewrite bind_Ok. cbv zeta.
  rewrite safe_alloc_count, Hgranted by lia.
  edestruct (mapM_Ok
    (λ (rank : Z) (local_array : list Z),
       local_array = take (Z.to_nat L) (drop (Z.to_nat (rank * Z.of_nat (Z.to_nat L))) file)))
    as (local_arrays & -> & HF).
  { intros rank Hrank%elem_of_seqZ. cbv beta. rewrite bind_Ok.
    assert (L * (rank * sizeof_int) ÷ sizeof_int = rank * L) as Hoff.
    { unfold sizeof_int. replace (L * (rank * 4)) with (rank * L * 4) by lia.
      by rewrite Z.quot_mul. }
    rewrite MPI_File_read_at_Ok.
    - eexists. split; [done|]. rewrite Hoff. simpl.
      rewrite (drop_ge (replicate _ _)), app_nil_r by (rewrite length_replicate; lia).
      do 3 f_equal. lia.
    - unfold sizeof_int. nia.
    - done.
    - lia.
    - rewrite Hoff. nia.
    - rewrite length_replicate. lia. }
  apply Forall2_fmap_eq in HF. subst local_arrays. rewrite bind_Ok.
  unfold MPI_Allgather.
  rewrite <- list_fmap_compose.
  rewrite (list_fmap_ext _ (λ r, take (Z.to_nat L)
             (drop (Z.to_nat (r * Z.of_nat (Z.to_nat L))) file)) (ranks num_proc)).
  2:{ intros i r _. simpl. by rewrite take_take, Nat.min_id. }
  unfold ranks.
  replace (seqZ 0 num_proc) with (seqZ 0 (Z.of_nat (Z.to_nat num_proc)))
    by (f_equal; lia).
  rewrite concat_file_blocks.
  replace (Z.to_nat num_proc * Z.to_nat L)%nat with (Z.to_nat (L * num_proc)) by nia.
  assert (length (take (Z.to_nat (L * num_proc)) file) = Z.to_nat (L * num_proc))
    as Hblocks by (rewrite length_take; lia).
  rewrite Hblocks. destruct (Nat.leb_spec (Z.to_nat (L * num_proc)) (length array));
    [|lia].
  rewrite bind_Ok. destruct (Z.ltb_spec (L * num_proc) size) as [Hleft | Hnone].
  - assert (L * num_proc * sizeof_int ÷ sizeof_int = L * num_proc) as Hoff
      by (unfold sizeof_int; by rewrite Z.quot_mul).
    rewrite MPI_File_read_at_Ok.
    + rewrite Hoff. f_equal.
      rewrite take_app_length' by done.
      rewrite (drop_ge (_ ++ _)), app_nil_r by (rewrite length_app, length_drop; lia).
      rewrite take_take_drop. f_equal. lia.
    + unfold sizeof_int. nia.
    + nia.
    + lia.
    + rewrite Hoff. lia.
    + rewrite length_app, length_drop. lia.
  - rewrite drop_ge, app_nil_r by lia. do 2 f_equal. lia.
Qed.

(** X18. With at least as many elements as processes, the per-rank block
    granted, and a file that holds at least [size] values,
    [array_init_from_file] returns with the first [size] values of the
    file in the array: the blocks read by the ranks at their own offsets,
    gathered in rank order, followed by the leftover values. *)
Theorem array_init_from_file_reads malloc (array : list Z) (size : Z)
    (file : list Z) (num_proc : Z) :
  Z.of_nat (length array) = size → 1 ≤ num_proc ≤ size → size ≤ INT_MAX →
  size ≤ Z.of_nat (length file) →
  malloc (4 * (size ÷ num_proc)) = true →
  array_init_from_file malloc array size file num_proc
    = Ok (take (Z.to_nat size) file).
Proof. apply array_init_from_file_take. Qed.

Lemma array_init_from_file_reads_witness :
  array_init_from_file (λ _, true) [0; 0; 0; 0; 0; 0; 0] 7
    [4; 8; 15; 16; 23; 42; 7; 11; 2] 3
    = Ok (take (Z.to_nat 7) [4; 8; 15; 16; 23; 42; 7; 11; 2]).
Proof.
  apply array_init_from_file_reads.
  - reflexivity.
  - lia.
  - vm_compute. discriminate.
  - simpl. lia.
  - reflexivity.
Defined.

(** X19. Under the same conditions [test_init_from_file] lets the process
    continue exactly when the first [size] values of the file all lie
    within [[RANGE_MIN, RANGE_MAX]], and ends it with
    [exit(EXIT_FAILURE)] otherwise. *)
Theorem test_init_from_file_spec malloc RANGE_MIN RANGE_MAX (array : list Z)
    (size : Z) (file : list Z) (num_proc : Z) :
  Z.of_nat (length array) = size → 1 ≤ num_proc ≤ size → size ≤ INT_MAX →
  size ≤ Z.of_nat (length file) →
  malloc (4 * (size ÷ num_proc)) = true →
  Test.test_init_from_file malloc RANGE_MIN RANGE_MAX array size file num_proc =
    if bool_decide (Forall (λ x, RANGE_MIN ≤ x ≤ RANGE_MAX) (take (Z.to_nat size) file))
    then Ok (take (Z.to_nat size) file)
    else Exit EXIT_FAILURE.
Proof.
  intros Hlen Hprocs Hsize Hfile Hgranted. unfold Test.test_init_from_file.
  rewrite array_init_from_file_take by done.
  rewrite bind_Ok, elements_in_range_decides by (rewrite length_take; lia).
  rewrite bind_Ok, take_take, Nat.min_id. done.
Qed.

Lemma test_init_from_file_spec_witness :
  Test.test_init_from_file (λ _, true) 0 40 [0; 0; 0; 0; 0; 0; 0] 7
    [4; 8; 15; 16; 23; 42; 7; 11; 2] 3 =
    if bool_decide (Forall (λ x, 0 ≤ x ≤ 40)
                      (take (Z.to_nat 7) [4; 8; 15; 16; 23; 42; 7; 11; 2]))
    then Ok (take (Z.to_nat 7) [4; 8; 15; 16; 23; 42; 7; 11; 2])
    else Exit EXIT_FAILURE.
Proof.
  apply test_init_from_file_spec.
  - reflexivity.
  - lia.
  - vm_compute. discriminate.
  - simpl. lia.
  - reflexivity.
Defined.

(** ** The two programs *)

Lemma random_fill_sort_input RANGE_MIN RANGE_MAX (data : list Z) (size num_proc : Z) :
  INT_MIN ≤ RANGE_MIN ∧ RANGE_MAX < INT_MAX ∧ RANGE_MAX - RANGE_MIN < INT_MAX →
  Z.of_nat (length data) = size → 1 ≤ size ≤ INT_MAX → 1 ≤ num_proc ≤ INT_MAX →
  Forall (λ x, RANGE_MIN ≤ x ≤ RANGE_MAX) data →
  sort_input RANGE_MIN RANGE_MAX data size num_proc.
Proof. intros Hrange Hlen Hsize Hprocs Hvalues. by split. Qed.

Lemma main_run_succeeds malloc RANGE_MIN RANGE_MAX rand_r rand
    (argv : list string) (arg : string) (num_proc rank : Z) :
  INT_MIN ≤ RANGE_MIN ∧ RANGE_MAX < INT_MAX ∧ RANGE_MAX - RANGE_MIN < INT_MAX →
  RANGE_MIN < RANGE_MAX →
  (∀ rank i, 0 ≤ rand_r rank i) → (∀ i, 0 ≤ rand i) →
  length argv = 2%nat → argv !! 1%nat = Some arg →
  1 ≤ num_proc ≤ atoll arg → atoll arg ≤ INT_MAX →
  (∀ bytes, 0 < bytes ≤ 4 * Z.max (atoll arg) (RANGE_MAX - RANGE_MIN + 1) →
            malloc bytes = true) →
  main_run malloc RANGE_MIN RANGE_MAX rand_r rand argv num_proc rank = Ok (atoll arg).
Proof.
  intros Hrange Hlt Hrand_r Hrand Hargc Harg Hprocs Hsize Hmalloc.
  unfold main_run. rewrite Hargc. simpl negb. cbv iota.
  destruct (Z.leb_spec RANGE_MAX RANGE_MIN); [lia|].
  rewrite Harg. simpl of_option. rewrite bind_Ok. cbv zeta.
  set (size := atoll arg) in *.
  pose proof (Z.quot_le_lower_bound size num_proc 1 ltac:(lia) ltac:(lia)) as HL1.
  pose proof (Z.quot_le_upper_bound size num_proc size ltac:(lia) ltac:(nia)) as HL2.
  rewrite safe_alloc_count, Hmalloc by lia. rewrite bind_Ok.
  destruct (array_init_random_spec malloc RANGE_MIN RANGE_MAX rand_r rand
              Hrange Hrand_r Hrand (replicate (Z.to_nat size) 0) size num_proc)
    as [[[Hsmall | Hrefused] _] | (_ & data & -> & Hdata & Hvalues)].
  - rewrite length_replicate. lia.
  - lia.
  - lia.
  - done.
  - lia.
  - rewrite Hmalloc in Hrefused by lia. done.
  - rewrite bind_Ok.
    pose proof (random_fill_sort_input RANGE_MIN RANGE_MAX data size num_proc
                  Hrange Hdata ltac:(lia) ltac:(lia) Hvalues) as Hin.
    destruct (sort_outcome _ _ malloc _ _ _ Hin)
      as (mn & mx & count & out & Hrun & Hlo & Hhi).
    rewrite (run_parallel _ _ _ _ _ _ _ _ Hrun).
    rewrite (sort_run_granted _ _ _ _ _ _ _ _ _ _ Hrun Hlo Hhi); [done|].
    intros bytes Hbytes. apply Hmalloc. lia.
Qed.

(** X20. [main] of the parallel program succeeds whenever it is given
    exactly one argument that [atoll] reads as a size between the number
    of processes and [INT_MAX], the interval macros fit [int] arithmetic,
    and the allocator grants the array and the widest histogram: every
    rank returns [EXIT_SUCCESS], rank 0 writes the record and the other
    ranks write nothing. *)
Theorem main_succeeds malloc RANGE_MIN RANGE_MAX rand_r rand
    time_init time_sort time_elapsed (argv : list string) (arg : string)
    (num_proc rank : Z) :
  INT_MIN ≤ RANGE_MIN ∧ RANGE_MAX < INT_MAX ∧ RANGE_MAX - RANGE_MIN < INT_MAX →
  RANGE_MIN < RANGE_MAX →
  (∀ rank i, 0 ≤ rand_r rank i) → (∀ i, 0 ≤ rand i) →
  length argv = 2%nat → argv !! 1%nat = Some arg →
  1 ≤ num_proc ≤ atoll arg → atoll arg ≤ INT_MAX →
  (∀ bytes, 0 < bytes ≤ 4 * Z.max (atoll arg) (RANGE_MAX - RANGE_MIN + 1) →
            malloc bytes = true) →
  main malloc RANGE_MIN RANGE_MAX rand_r rand time_init time_sort time_elapsed
       argv num_proc rank =
    (Ok EXIT_SUCCESS,
     if rank =? 0
     then pretty (atoll arg) +:+ ";" +:+ pretty num_proc +:+ ";" +:+
          time_init +:+ ";" +:+ time_sort +:+ ";" +:+ time_elapsed +:+ ";"
     else "").
Proof.
  intros Hrange Hlt Hrand_r Hrand Hargc Harg Hprocs Hsize Hmalloc. unfold main.
  by rewrite (main_run_succeeds _ _ _ _ _ _ arg) by done.
Qed.

Lemma main_succeeds_witness :
  main (λ bytes, bytes <=? 400004) util_RANGE_MIN util_RANGE_MAX
       (λ rank i, Z.abs (rank * 3 + i)) (λ i, Z.abs (i * 7))
       "0.00012" "0.00034" "0.00046" ["parallel.out"; "12"] 2 0 =
    (Ok EXIT_SUCCESS,
     if 0 =? 0
     then pretty (atoll "12") +:+ ";" +:+ pretty 2 +:+ ";" +:+
          "0.00012" +:+ ";" +:+ "0.00034" +:+ ";" +:+ "0.00046" +:+ ";"
     else "").
Proof.
  apply (main_succeeds (λ bytes, bytes <=? 400004) util_RANGE_MIN util_RANGE_MAX
           (λ rank i, Z.abs (rank * 3 + i)) (λ i, Z.abs (i * 7))
           "0.00012" "0.00034" "0.00046" ["parallel.out"; "12"] "12" 2 0).
  - vm_compute. repeat split; discriminate.
  - reflexivity.
  - intros rank i. lia.
  - intros i. lia.
  - reflexivity.
  - reflexivity.
  - vm_compute. split; discriminate.
  - vm_compute. discriminate.
  - intros bytes [_ Hbytes]. apply Z.leb_le. vm_compute in Hbytes. vm_compute.
    exact Hbytes.
Defined.

Lemma serial_fill (min max : Z) (rand_r : Z → Z) (array : list Z) (size : Z) :
  INT_MIN ≤ min ∧ max < INT_MAX ∧ max - min < INT_MAX → min < max →
  (∀ i, 0 ≤ rand_r i) →
  0 ≤ size ≤ Z.of_nat (length array) →
  ∃ data,
    SerialProgram.array_init_random rand_r array size min max = Ok data ∧
    length data = length array ∧
    Forall (λ x, min ≤ x ≤ max) (take (Z.to_nat size) data).
Proof.
  intros Hrange Hlt Hrand Hsize. unfold SerialProgram.array_init_random.
  edestruct (fill_loop_spec (λ x, min ≤ x ≤ max)
               (λ i, c_rem (rand_r i) (int_sub (int_add max 1) min))
               (λ r, int_add r min) 0 size array)
    as (data & -> & Hdata & Hvalues).
  - lia.
  - lia.
  - intros i _. by apply random_value.
  - intros k v Hk. lia.
  - exists data. split; [done|]. split; [done|].
    apply Forall_lookup. intros k v [Hv Hk]%lookup_take_Some.
    apply (Hvalues k); [lia | done].
Qed.

(** X21. [array_init_random] of [serial.c] overwrites the first [size]
    elements of the array with values of [[min, max]] and keeps the
    length of the array. *)
Theorem serial_array_init_random_in_range (min max : Z) (rand_r : Z → Z)
    (array : list Z) (size : Z) :
  INT_MIN ≤ min ∧ max < INT_MAX ∧ max - min < INT_MAX → min < max →
  (∀ i, 0 ≤ rand_r i) →
  0 ≤ size ≤ Z.of_nat (length array) →
  ∃ data,
    SerialProgram.array_init_random rand_r array size min max = Ok data ∧
    length data = length array ∧
    Forall (λ x, min ≤ x ≤ max) (take (Z.to_nat size) data).
Proof. apply serial_fill. Qed.

Lemma serial_array_init_random_in_range_witness :
  ∃ data,
    SerialProgram.array_init_random (λ i, Z.abs (i * 7)) [0; 0; 0; 0; 0] 4 2 5
      = Ok data ∧
    length data = length [0; 0; 0; 0; 0] ∧
    Forall (λ x, 2 ≤ x ≤ 5) (take (Z.to_nat 4) data).
Proof.
  apply serial_array_init_random_in_range.
  - vm_compute. repeat split; discriminate.
  - lia.
  - intros i. lia.
  - simpl. lia.
Defined.

(** X22. [main] of [serial.c] succeeds whenever it is given exactly one
    argument that [atoll] reads as a size between 1 and [INT_MAX], the
    interval macros fit [int] arithmetic, and the allocator grants the
    array and the widest histogram: it returns 0 after writing the
    record, whose second field is always 0. *)
Theorem serial_main_succeeds malloc RANGE_MIN RANGE_MAX (rand_r : Z → Z)
    time_init time_sort time_elapsed (argv : list string) (arg : string) :
  INT_MIN ≤ RANGE_MIN ∧ RANGE_MAX < INT_MAX ∧ RANGE_MAX - RANGE_MIN < INT_MAX →
  RANGE_MIN < RANGE_MAX →
  (∀ i, 0 ≤ rand_r i) →
  length argv = 2%nat → argv !! 1%nat = Some arg →
  1 ≤ atoll arg ≤ INT_MAX →
  (∀ bytes, 0 < bytes ≤ 4 * Z.max (atoll arg) (RANGE_MAX - RANGE_MIN + 1) →
            malloc bytes = true) →
  SerialProgram.main malloc RANGE_MIN RANGE_MAX rand_r time_init time_sort
    time_elapsed argv =
    (Ok 0, pretty (atoll arg) +:+ ";0;" +:+ time_init +:+ ";" +:+ time_sort +:+ ";" +:+
           time_elapsed +:+ ";").
Proof.
  intros Hrange Hlt Hrand Hargc Harg Hsize Hmalloc.
  unfold SerialProgram.main. rewrite Hargc. simpl negb. cbv iota.
  destruct (Z.leb_spec RANGE_MAX RANGE_MIN); [lia|].
  rewrite Harg. simpl of_option. rewrite bind_Ok. cbv zeta.
  set (size := atoll arg) in *.
  rewrite safe_alloc_count, Hmalloc by lia. rewrite bind_Ok.
  destruct (serial_fill RANGE_MIN RANGE_MAX rand_r (replicate (Z.to_nat size) 0) size)
    as (data & -> & Hdata & Hvalues); [done.. | rewrite length_replicate; lia |].
  rewrite length_replicate in Hdata. rewrite take_ge in Hvalues by lia.
  rewrite bind_Ok.
  assert (sort_input RANGE_MIN RANGE_MAX data size 1) as Hin.
  { apply random_fill_sort_input; [done | lia | lia | | done].
    vm_compute. split; discriminate. }
  destruct (sort_outcome _ _ malloc _ _ _ Hin)
    as (mn & mx & count & out & Hrun & Hlo & Hhi).
  rewrite (run_serial _ _ _ _ _ _ _ _ Hrun).
  rewrite (sort_run_granted _ _ _ _ _ _ _ _ _ _ Hrun Hlo Hhi); [done|].
  intros bytes Hbytes. apply Hmalloc. lia.
Qed.

Lemma serial_main_succeeds_witness :
  SerialProgram.main (λ bytes, bytes <=? 1024) serial_RANGE_MIN serial_RANGE_MAX
    (λ i, Z.abs (i * 7)) "0.00012" "0.00034" "0.00046" ["serial.out"; "12"] =
    (Ok 0, pretty (atoll "12") +:+ ";0;" +:+ "0.00012" +:+ ";" +:+ "0.00034" +:+ ";" +:+
           "0.00046" +:+ ";").
Proof.
  apply (serial_main_succeeds (λ bytes, bytes <=? 1024) serial_RANGE_MIN
           serial_RANGE_MAX (λ i, Z.abs (i * 7)) "0.00012" "0.00034" "0.00046"
           ["serial.out"; "12"] "12").
  - vm_compute. repeat split; discriminate.
  - reflexivity.
  - intros i. lia.
  - reflexivity.
  - reflexivity.
  - vm_compute. split; discriminate.
  - intros bytes [_ Hbytes]. apply Z.leb_le. vm_compute in Hbytes. vm_compute.
    exact Hbytes.
Defined.

Lemma atoll_digits (c : ascii) (s : string) (d : Z) :
  digit_value c = Some d →
  atoll (String c s) = Z.max LLONG_MIN (Z.min LLONG_MAX (digits_value 0 (String c s))).
Proof.
  intros Hd.
  destruct c as [[] [] [] [] [] [] [] []];
    try (vm_compute in Hd; discriminate Hd); reflexivity.
Qed.

Lemma digits_value_suffix (s : string) : ∀ (acc : Z) (t : string),
  forallb (λ c, bool_decide (is_Some (digit_value c))) (list_ascii_of_string s) = true →
  (∀ c t', t = String c t' → digit_value c = None) →
  digits_value acc (s +:+ t) = digits_value acc s.
Proof.
  induction s as [|c s IH]; intros acc t Hs Ht; simpl.
  - destruct t as [|c t']; [done|]. simpl. by rewrite (Ht c t').
  - simpl in Hs. apply andb_true_iff in Hs as [Hc Hs].
    apply bool_decide_eq_true in Hc as [d Hd]. rewrite Hd. by apply IH.
Qed.

Lemma atoll_suffix (s t : string) :
  well_formed_size s = true →
  (∀ c t', t = String c t' → digit_value c = None) →
  atoll (s +:+ t) = atoll s.
Proof.
  intros Hs Ht. destruct s as [|c s]; [done|].
  unfold well_formed_size in Hs. pose proof Hs as Hc. simpl in Hc.
  apply andb_true_iff in Hc as [Hc _]. apply bool_decide_eq_true in Hc as [d Hd].
  change (String c s +:+ t) with (String c (s +:+ t)).
  rewrite !(atoll_digits c _ d Hd). do 2 f_equal.
  by apply (digits_value_suffix (String c s)).
Qed.

(** X23. [main] hands its argument to [atoll] unchecked: whatever follows
    a leading run of digits, from the first character that is not a
    digit on, changes nothing to the run, on any rank. *)
Theorem main_ignores_suffix malloc RANGE_MIN RANGE_MAX rand_r rand
    time_init time_sort time_elapsed (prog s t : string) (num_proc rank : Z) :
  well_formed_size s = true →
  (∀ c t', t = String c t' → digit_value c = None) →
  main malloc RANGE_MIN RANGE_MAX rand_r rand time_init time_sort time_elapsed
       [prog; s +:+ t] num_proc rank =
  main malloc RANGE_MIN RANGE_MAX rand_r rand time_init time_sort time_elapsed
       [prog; s] num_proc rank.
Proof.
  intros Hs Ht. unfold main, main_run.
  change (length [prog; s +:+ t]) with 2%nat. change (length [prog; s]) with 2%nat.
  change ([prog; s +:+ t] !! 1%nat) with (Some (s +:+ t)).
  change ([prog; s] !! 1%nat) with (Some s).
  simpl of_option. rewrite !bind_Ok. cbv zeta. by rewrite atoll_suffix.
Qed.

Lemma main_ignores_suffix_witness :
  main (λ _, true) util_RANGE_MIN util_RANGE_MAX (λ rank i, rank * 3 + i)
       (λ i, i * 7) "0.00012" "0.00034" "0.00046"
       ["parallel.out"; "12" +:+ " elements"] 2 0 =
  main (λ _, true) util_RANGE_MIN util_RANGE_MAX (λ rank i, rank * 3 + i)
       (λ i, i * 7) "0.00012" "0.00034" "0.00046"
       ["parallel.out"; "12"] 2 0.
Proof.
  apply main_ignores_suffix; [reflexivity|].
  intros c t' [= <- _]. reflexivity.
Defined.

(** ** The test program *)

Lemma test_size_passes malloc RANGE_MIN RANGE_MAX rand_r rand (argc : Z)
    (file : list Z) (size num_proc : Z) :
  INT_MIN ≤ RANGE_MIN ∧ RANGE_MAX < INT_MAX ∧ RANGE_MAX - RANGE_MIN < INT_MAX →
  RANGE_MIN < RANGE_MAX →
  (∀ rank i, 0 ≤ rand_r rank i) → (∀ i, 0 ≤ rand i) →
  argc ≠ 2 → 1 ≤ num_proc ≤ size → size ≤ INT_MAX →
  (∀ bytes, 0 < bytes ≤ 4 * Z.max size (RANGE_MAX - RANGE_MIN + 1) →
            malloc bytes = true) →
  Test.test_size malloc RANGE_MIN RANGE_MAX rand_r rand argc file size num_proc = Ok tt.
Proof.
  intros Hrange Hlt Hrand_r Hrand Hargc Hprocs Hsize Hmalloc. unfold Test.test_size.
  pose proof (Z.quot_le_lower_bound size num_proc 1 ltac:(lia) ltac:(lia)) as HL1.
  pose proof (Z.quot_le_upper_bound size num_proc size ltac:(lia) ltac:(nia)) as HL2.
  rewrite safe_alloc_count, Hmalloc by lia. rewrite bind_Ok.
  destruct (Z.eqb_spec argc 2); [done|]. rewrite bind_Ok.
  unfold Test.test_init_random.
  destruct (array_init_random_spec malloc RANGE_MIN RANGE_MAX rand_r rand
              Hrange Hrand_r Hrand (replicate (Z.to_nat size) 0) size num_proc)
    as [[[Hsmall | Hrefused] _] | (_ & data & -> & Hdata & Hvalues)].
  - rewrite length_replicate. lia.
  - lia.
  - lia.
  - done.
  - lia.
  - rewrite Hmalloc in Hrefused by lia. done.
  - rewrite bind_Ok, elements_in_range_decides by lia.
    rewrite bool_decide_eq_true_2 by (by apply Forall_take). rewrite !bind_Ok.
    destruct (test_sort_Ok RANGE_MIN RANGE_MAX malloc data size num_proc)
      as (out & -> & _).
    + apply random_fill_sort_input; [done | done | lia | lia | done].
    + intros bytes Hbytes. apply Hmalloc. lia.
    + done.
Qed.

(** X24. The test program passes with at most ten processes: without a
    file argument, with interval macros that fit [int] arithmetic and an
    allocator that grants the largest array and the widest histogram,
    every round of [main] of [test.c] goes through its three checks and
    [main] returns [EXIT_SUCCESS]. *)
Theorem test_main_passes malloc RANGE_MIN RANGE_MAX rand_r rand
    (argv : list string) (file : list Z) (num_proc : Z) :
  INT_MIN ≤ RANGE_MIN ∧ RANGE_MAX < INT_MAX ∧ RANGE_MAX - RANGE_MIN < INT_MAX →
  RANGE_MIN < RANGE_MAX →
  (∀ round rank i, 0 ≤ rand_r round rank i) → (∀ i, 0 ≤ rand i) →
  length argv ≠ 2%nat → 1 ≤ num_proc ≤ 10 →
  (∀ bytes, 0 < bytes ≤ 4 * Z.max 20000000 (RANGE_MAX - RANGE_MIN + 1) →
            malloc bytes = true) →
  Test.main malloc RANGE_MIN RANGE_MAX rand_r rand argv file num_proc
    = Ok EXIT_SUCCESS.
Proof.
  intros Hrange Hlt Hrand_r Hrand Hargc Hprocs Hmalloc.
  unfold Test.main, for_range.
  change (Z.to_nat (Test.NUM_SIZES - 0)) with 5%nat. cbn [for_loop].
  change (load Test.sizes 0) with (Ok 10).
  change (load Test.sizes (0 + 1)) with (Ok 6053).
  change (load Test.sizes (0 + 1 + 1)) with (Ok 30000).
  change (load Test.sizes (0 + 1 + 1 + 1)) with (Ok 500009).
  change (load Test.sizes (0 + 1 + 1 + 1 + 1)) with (Ok 20000000).
  rewrite !bind_Ok.
  rewrite !test_size_passes;
    first [ done | lia | unfold INT_MAX; lia
          | intros bytes Hbytes; apply Hmalloc; lia ].
Qed.

Lemma test_main_passes_witness :
  Test.main (λ bytes, bytes <=? 80000000) util_RANGE_MIN util_RANGE_MAX
    (λ round rank i, Z.abs (round + rank * 3 + i)) (λ i, Z.abs (i * 7))
    ["test.out"] [] 4 = Ok EXIT_SUCCESS.
Proof.
  apply test_main_passes.
  - vm_compute. repeat split; discriminate.
  - reflexivity.
  - intros round rank i. lia.
  - intros i. lia.
  - simpl. lia.
  - lia.
  - intros bytes [_ Hbytes]. apply Z.leb_le.
    unfold util_RANGE_MAX, util_RANGE_MIN in Hbytes. lia.
Defined.

Lemma test_size_exits malloc RANGE_MIN RANGE_MAX rand_r rand (argc : Z)
    (file : list Z) (size num_proc : Z) :
  0 ≤ size < num_proc →
  Test.test_size malloc RANGE_MIN RANGE_MAX rand_r rand argc file size num_proc
    = Exit EXIT_FAILURE.
Proof.
  intros Hsize. unfold Test.test_size.
  destruct (safe_alloc_cases malloc (wrap_llong (size * sizeof_int)))
    as [[_ ->] | [_ ->]]; [done|].
  rewrite bind_Ok. destruct (argc =? 2).
  - unfold Test.test_init_from_file.
    by rewrite array_init_from_file_exits by lia.
  - rewrite bind_Ok. unfold Test.test_init_random.
    by rewrite array_init_random_exits by lia.
Qed.

(** X25. The test program cannot pass with more than ten processes: its
    first round has ten elements, fewer than one per process, and ends
    in [exit(EXIT_FAILURE)] at the first allocation of a per-rank block,
    with or without a file argument. *)
Theorem test_main_too_many_processes malloc RANGE_MIN RANGE_MAX rand_r rand
    (argv : list string) (file : list Z) (num_proc : Z) :
  10 < num_proc →
  Test.main malloc RANGE_MIN RANGE_MAX rand_r rand argv file num_proc
    = Exit EXIT_FAILURE.
Proof.
  intros Hprocs. unfold Test.main, for_range.
  change (Z.to_nat (Test.NUM_SIZES - 0)) with 5%nat. cbn [for_loop].
  change (load Test.sizes 0) with (Ok 10). rewrite bind_Ok.
  by rewrite test_size_exits by lia.
Qed.

Lemma test_main_too_many_processes_witness :
  Test.main (λ _, true) util_RANGE_MIN util_RANGE_MAX
    (λ round rank i, round + rank * 3 + i) (λ i, i * 7) ["test.out"] [] 16
    = Exit EXIT_FAILURE.
Proof. apply test_main_too_many_processes. lia. Defined.

(** X26. [counting_sort] of [serial.c], on a well-formed input with the
    histogram granted, returns a non-decreasing rearrangement of the
    array. *)
Theorem serial_counting_sort_sorts lo hi malloc array size :
  sort_input lo hi array size 1 →
  (∀ bytes, 0 < bytes ≤ 4 * (hi - lo + 1) → malloc bytes = true) →
  ∃ out,
    Serial.counting_sort malloc array size = Ok out ∧
    Sorted Z.le out ∧ out ≡ₚ array.
Proof.
  intros Hin Hmalloc.
  destruct (sort_outcome lo hi malloc array size 1 Hin)
    as (mn & mx & count & out & Hrun & Hlo & Hhi).
  pose proof (sort_run_granted _ _ _ _ _ _ _ _ _ _ Hrun Hlo Hhi Hmalloc) as Hgranted.
  destruct Hrun as [_ _ _ _ Hsorted Hperm _ _ _ Hserial].
  exists out. by rewrite Hserial, Hgranted.
Qed.

Lemma serial_counting_sort_sorts_witness :
  ∃ out,
    Serial.counting_sort (λ _, true) [5; 3; 9; 1; 4; 1; 9; 2; 6; 3] 10 = Ok out ∧
    Sorted Z.le out ∧ out ≡ₚ [5; 3; 9; 1; 4; 1; 9; 2; 6; 3].
Proof.
  apply (serial_counting_sort_sorts util_RANGE_MIN util_RANGE_MAX); [|done].
  sort_input_by_computation.
Defined.
